(** * go-sl: a service locator with lazily configured slots and ordered hooks

    Shallow embedding of [sl.go].  The library functions ([Provide],
    [ProvideFunc], [useSlotValue], [Use], [UseHook], ...) are Rocq functions
    in a small state-and-panic monad over the memory the Go code works on:
    the two maps of the [ServiceLocator], the heap of [*slotEntry] cells they
    point to, and the package-level [Logger].  The functions a client passes
    in (the [createFunc] of a lazy slot, the listeners of a hook) are
    arbitrary Go code that receives the [*ServiceLocator] and may call back
    into the library; they are represented by command trees ([prog]) run by
    [exec], which gives out after a bounded number of steps. *)

From Stdlib Require Import ZArith String List Lia.
From stdpp Require Import base option list gmap strings.

Local Open Scope string_scope.
Local Open Scope list_scope.

(** ** Go values *)

(** A Go type as far as this package can tell types apart: whether it is an
    interface type, and its name as [%T] prints it. *)
Inductive goType : Type :=
| TConcrete (name : string)
| TInterface (name : string).

Definition typeString (T : goType) : string :=
  match T with
  | TConcrete n => n
  | TInterface n => n
  end.

#[global] Instance goType_eq_dec : EqDecision goType.
Proof. solve_decision. Defined.

Definition goType_to_sum (T : goType) : string + string :=
  match T with
  | TConcrete n => inl n
  | TInterface n => inr n
  end.

Definition goType_of_sum (x : string + string) : goType :=
  match x with
  | inl n => TConcrete n
  | inr n => TInterface n
  end.

#[global] Instance goType_countable : Countable goType.
Proof.
  apply (inj_countable' goType_to_sum goType_of_sum).
  intros []; reflexivity.
Defined.

(** A value of type [any]: the nil interface, or a value of a concrete
    dynamic type.  What the value holds is opaque to the package; [data]
    stands for it. *)
Inductive any : Type :=
| anyNil
| anyVal (dyn : string) (data : Z).

#[global] Instance any_eq_dec : EqDecision any.
Proof. solve_decision. Defined.

(** [error] values; [Errorf] is [fmt.Errorf] with the message already
    formatted. *)
Inductive error : Type :=
| Errorf (msg : string).

#[global] Instance error_eq_dec : EqDecision error.
Proof. solve_decision. Defined.

(** What a [panic] carries. *)
Inductive panicValue : Type :=
| PanicError (e : error)          (* panic(err) *)
| PanicString (s : string)        (* panic(`...`) *)
| PanicRuntime (s : string).      (* a run-time panic of the language *)

Definition nilDereference : panicValue :=
  PanicRuntime "invalid memory address or nil pointer dereference".

Definition interfaceConversion : panicValue :=
  PanicRuntime "interface conversion".

(** [%T] of a value. *)
Definition dynTypeString (x : any) : string :=
  match x with
  | anyNil => "<nil>"
  | anyVal dyn _ => dyn
  end.

(** [s[1:]] on a non-empty string. *)
Definition dropFirst (s : string) : string :=
  match s with
  | EmptyString => EmptyString
  | String _ r => r
  end.

(** getTypeName is a trick to get the name of a type: [%T] of a [*T] with the
    leading star cut off. *)
Definition getTypeName (T : goType) : string :=
  dropFirst ("*" +:+ typeString T).

(** func zero[T any]() T *)
Definition zero (T : goType) : any :=
  match T with
  | TConcrete n => anyVal n 0
  | TInterface _ => anyNil
  end.

(** ** Tokens *)

(** [type slot[T any] *struct{}]: a pointer to a zero-size variable.  Used as
    a key of a [map[any]...] a token is compared by its dynamic type, the
    instance [slot[T]], and by the address it holds. *)
Record slot : Type := mkSlot { slotType : goType; slotAddr : nat }.

(** [type hook[T any] *struct{}] *)
Record hook : Type := mkHook { hookType : goType; hookAddr : nat }.

#[global] Instance slot_eq_dec : EqDecision slot.
Proof. solve_decision. Defined.

#[global] Instance hook_eq_dec : EqDecision hook.
Proof. solve_decision. Defined.

#[global] Instance slot_countable : Countable slot.
Proof.
  apply (inj_countable' (fun k => (slotType k, slotAddr k))
                        (fun p => mkSlot (fst p) (snd p))).
  intros []; reflexivity.
Defined.

#[global] Instance hook_countable : Countable hook.
Proof.
  apply (inj_countable' (fun k => (hookType k, hookAddr k))
                        (fun p => mkHook (fst p) (snd p))).
  intros []; reflexivity.
Defined.

(** The allocator behind [new(struct{})].  Go leaves the address of a
    zero-size variable open (two distinct zero-size variables may have the
    same address), so the address handed out by the [n]-th allocation is a
    parameter of [NewSlot] and [NewHook]. *)
Section Tokens.
Variable newZeroSize : nat -> nat.

(** func NewSlot[T any]() slot[T] { return slot[T](new(struct{})) } *)
Definition NewSlot (T : goType) (allocs : nat) : slot * nat :=
  (mkSlot T (newZeroSize allocs), S allocs).

(** func NewHook[T any]() hook[T] { return hook[T](new(struct{})) } *)
Definition NewHook (T : goType) (allocs : nat) : hook * nat :=
  (mkHook T (newZeroSize allocs), S allocs).
End Tokens.

(** The gc runtime's choice: every zero-size allocation that reaches the heap
    gets the address of [runtime.zerobase]. *)
Definition zerobase : nat := 0.
Definition gcZeroSize (n : nat) : nat := zerobase.

(** An allocator that never reuses an address. *)
Definition freshZeroSize (n : nat) : nat := S n.

(** ** Client code *)

(** The body of a function handed to the library: a [createFunc] or a hook
    listener.  It receives the [*ServiceLocator], so it may call every
    exported function of the package on it, and it may read and write
    variables it closes over.  [Return v err] ends a [createFunc] with
    [return v, err]; a listener, which returns only an error, ends with
    [Return anyNil err].  A panic ends the run: client code that recovers
    from a panic is not represented. *)
#[warnings="-register-all"]
Inductive prog : Type :=
| Return (v : any) (err : option error)
| DoPanic (x : panicValue)
| DoUse (k : slot) (cont : any -> option error -> prog)
| DoMustUse (k : slot) (cont : any -> prog)
| DoInvoke (k : slot) (cont : option error -> prog)
| DoMustInvoke (k : slot) (cont : prog)
| DoProvide (k : slot) (v : any) (cont : any -> prog)
| DoProvideFunc (k : slot) (createFunc : prog) (cont : prog)
| DoProvideHook (h : hook) (listeners : list (any -> prog)) (cont : prog)
| DoUseHook (h : hook) (v : any) (cont : option error -> prog)
| DoMustUseHook (h : hook) (v : any) (cont : prog)
| DoLoad (x : string) (cont : Z -> prog)
| DoStore (x : string) (n : Z) (cont : prog).

(** ** The registry *)

(** slotEntry represents a service that can lazily configured. *)
Record slotEntry : Type := mkSlotEntry {
  typeName : string;
  configureFunc : option prog;     (* None is the nil func *)
  configured : bool;
  value : any
}.

Record hookEntry : Type := mkHookEntry {
  hookTypeName : string;
  listeners : list (any -> prog)
}.

(** [providers] maps a token to a [*slotEntry], an index into the heap
    [entries] of the state below.  [hooks] maps a token to a [*hookEntry];
    a hook entry is never written after [ProvideHook] built it, so the map
    holds the entry itself and a missing key reads as the nil pointer. *)
Record ServiceLocator : Type := mkServiceLocator {
  providers : gmap slot nat;
  hooks : gmap hook hookEntry
}.

(** func New() *ServiceLocator *)
Definition New : ServiceLocator :=
  {| providers := ∅; hooks := ∅ |}.

(** Everything the package reads or writes.  [invoked] is bookkeeping of the
    model, not a variable of the program: [ensureConfigured] pushes the
    address of an entry onto it each time it calls that entry's
    [configureFunc]. *)
Record state : Type := mkState {
  locator : ServiceLocator;
  entries : list slotEntry;
  Logger : list string;
  vars : gmap string Z;
  invoked : list nat
}.

Definition initial : state :=
  {| locator := New; entries := []; Logger := []; vars := ∅; invoked := [] |}.

(** ** Computations *)

Inductive outcome (A : Type) : Type :=
| Done (a : A)
| Panicked (x : panicValue)
| OutOfFuel.

Arguments Done {A} a.
Arguments Panicked {A} x.
Arguments OutOfFuel {A}.

Definition M (A : Type) : Type := state -> outcome A * state.

Definition ret {A} (a : A) : M A := fun w => (Done a, w).

Definition bind {A B} (m : M A) (f : A -> M B) : M B :=
  fun w =>
    match m w with
    | (Done a, w') => f a w'
    | (Panicked x, w') => (Panicked x, w')
    | (OutOfFuel, w') => (OutOfFuel, w')
    end.

Definition panic {A} (x : panicValue) : M A := fun w => (Panicked x, w).

Notation "'let*' x ':=' m 'in' k" := (bind m (fun x => k))
  (at level 10, x pattern, m at level 100, k at level 200).
Notation "m ';;;' k" := (bind m (fun _ => k))
  (at level 100, k at level 200, right associativity).

(** *** Memory operations *)

Definition setLocator (l : ServiceLocator) (w : state) : state :=
  {| locator := l; entries := entries w; Logger := Logger w;
     vars := vars w; invoked := invoked w |}.

Definition setEntries (es : list slotEntry) (w : state) : state :=
  {| locator := locator w; entries := es; Logger := Logger w;
     vars := vars w; invoked := invoked w |}.

(** Logger.Printf *)
Definition Printf (line : string) : M unit :=
  fun w => (Done tt,
            {| locator := locator w; entries := entries w;
               Logger := Logger w ++ [line];
               vars := vars w; invoked := invoked w |}).

(** The ghost record of one call of [configureFunc] on the entry at [s]. *)
Definition recordCall (s : nat) (w : state) : state :=
  {| locator := locator w; entries := entries w; Logger := Logger w;
     vars := vars w; invoked := s :: invoked w |}.

(** [&slotEntry{...}]: a new cell at a fresh address. *)
Definition newSlotEntry (e : slotEntry) : M nat :=
  fun w => (Done (length (entries w)), setEntries (entries w ++ [e]) w).

(** Reading a field through [s *slotEntry]. *)
Definition readEntry (s : nat) : M slotEntry :=
  fun w =>
    match entries w !! s with
    | Some e => (Done e, w)
    | None => (Panicked nilDereference, w)
    end.

(** Writing one field through [s *slotEntry]. *)
Definition writeEntry (s : nat) (f : slotEntry -> slotEntry) : M unit :=
  fun w =>
    match entries w !! s with
    | Some e => (Done tt, setEntries (<[s := f e]> (entries w)) w)
    | None => (Panicked nilDereference, w)
    end.

Definition setConfigured (b : bool) (e : slotEntry) : slotEntry :=
  {| typeName := typeName e; configureFunc := configureFunc e;
     configured := b; value := value e |}.

Definition setValue (v : any) (e : slotEntry) : slotEntry :=
  {| typeName := typeName e; configureFunc := configureFunc e;
     configured := configured e; value := v |}.

(** l.providers[slotKey] = s *)
Definition storeProvider (k : slot) (s : nat) : M unit :=
  fun w => (Done tt,
            setLocator {| providers := <[k := s]> (providers (locator w));
                          hooks := hooks (locator w) |} w).

(** slot, ok := l.providers[slotKey] *)
Definition loadProvider (k : slot) : M (option nat) :=
  fun w => (Done (providers (locator w) !! k), w).

(** l.hooks[hookKey] = &hookEntry{...} *)
Definition storeHook (h : hook) (e : hookEntry) : M unit :=
  fun w => (Done tt,
            setLocator {| providers := providers (locator w);
                          hooks := <[h := e]> (hooks (locator w)) |} w).

(** hookEntry, ok := l.hooks[hookKey] *)
Definition loadHook (h : hook) : M (option hookEntry) :=
  fun w => (Done (hooks (locator w) !! h), w).

Definition loadVar (x : string) : M Z :=
  fun w => (Done (default 0%Z (vars w !! x)), w).

Definition storeVar (x : string) (n : Z) : M unit :=
  fun w => (Done tt,
            {| locator := locator w; entries := entries w; Logger := Logger w;
               vars := <[x := n]> (vars w); invoked := invoked w |}).

(** ** Concrete tokens, values and client functions *)

Module Examples.

(** Every concrete type implements every interface: enough for the runs
    below, whose values are of the right type by construction. *)
Definition implementsAll (dyn iface : string) : bool := true.

Definition intType : goType := TConcrete "int".
Definition errorType : goType := TInterface "error".

Definition intSlot : slot := mkSlot intType 1.
Definition otherIntSlot : slot := mkSlot intType 2.
Definition errorSlot : slot := mkSlot errorType 3.
Definition intHook : hook := mkHook intType 4.
Definition errorHook : hook := mkHook errorType 5.

Definition int (n : Z) : any := anyVal "int" n.

Definition boom : error := Errorf "boom".

(** func(l *ServiceLocator) (int, error) { return 1, nil } *)
Definition returnOne : prog := Return (int 1) None.


(** func(l *ServiceLocator) (int, error) { return 0, boom } *)
Definition failBoom : prog := Return (int 0) (Some boom).


(** func(l *ServiceLocator) (int, error) {
      sl.Provide(l, intSlot, 7); return 0, boom } *)
Definition provideThenFail : prog :=
  DoProvide intSlot (int 7) (fun _ => failBoom).

(** func(l *ServiceLocator) (int, error) {
      n, err := sl.Use(l, otherIntSlot)
      if err != nil { return 0, err }
      return n + 1, nil } *)
Definition needsOther : prog :=
  DoUse otherIntSlot (fun v err =>
    match err, v with
    | Some err, _ => Return (int 0) (Some err)
    | None, anyVal _ n => Return (int (n + 1)) None
    | None, anyNil => DoPanic nilDereference
    end).

(** calls := 0
    func(l *ServiceLocator) (int, error) {
      calls++
      if calls == 1 { sl.Use(l, intSlot); return 0, boom }
      return 5, nil } *)
Definition failOnceReentrant : prog :=
  DoLoad "calls" (fun n =>
    DoStore "calls" (n + 1)
      (if (n =? 0)%Z
       then DoUse intSlot (fun _ _ => failBoom)
       else Return (int 5) None)).


(** The three slots of TestBasic in sl_test.go, and its constructors.  A
    [*Config] is stood for by the number 10, the [*log.Logger] built from
    it by that number plus 1, the [*ExampleService] by the sum of both. *)
Definition ConfigSlot : slot := mkSlot (TConcrete "*sl_test.Config") 6.
Definition LoggerSlot : slot := mkSlot (TConcrete "*log.Logger") 7.
Definition ExampleServiceSlot : slot := mkSlot (TConcrete "*sl_test.ExampleService") 8.

Definition dataOf (v : any) : Z :=
  match v with
  | anyNil => 0
  | anyVal _ n => n
  end.

Definition newConfig : prog := Return (anyVal "*sl_test.Config" 10) None.

Definition newLogger : prog :=
  DoMustUse ConfigSlot (fun config =>
    Return (anyVal "*log.Logger" (dataOf config + 1)) None).

Definition newExampleService : prog :=
  DoUse ConfigSlot (fun config err =>
    match err with
    | Some err => Return (zero (slotType ExampleServiceSlot)) (Some err)
    | None =>
        DoUse LoggerSlot (fun logger err =>
          match err with
          | Some err => Return (zero (slotType ExampleServiceSlot)) (Some err)
          | None =>
              Return (anyVal "*sl_test.ExampleService" (dataOf config + dataOf logger)) None
          end)
    end).

(** A listener that adds [d] to the variable [total] and succeeds. *)
Definition addToTotal (d : Z) : any -> prog :=
  fun _ => DoLoad "total" (fun n => DoStore "total" (n + d) (Return anyNil None)).

(** A listener that fails. *)
Definition failListener : any -> prog :=
  fun _ => Return anyNil (Some boom).

End Examples.

(** ** The package *)

Section Package.

(** Whether a concrete type implements an interface type, both by name. *)
Variable implements : string -> string -> bool.

(** [x.(T)] on [x] of type [any]: [x] is not nil, and its dynamic type is
    [T] (a concrete [T]) or implements [T] (an interface [T]). *)
Definition typeAssert (T : goType) (x : any) : option any :=
  match x with
  | anyNil => None
  | anyVal dyn _ =>
      match T with
      | TConcrete n => if decide (dyn = n) then Some x else None
      | TInterface i => if implements dyn i then Some x else None
      end
  end.

(** [x], seen as an [any], is a value a variable of static type [T] can
    hold: the type checker's guarantee for every argument of type [T]. *)
Definition hasType (T : goType) (x : any) : bool :=
  match T, x with
  | TConcrete n, anyVal dyn _ => bool_decide (dyn = n)
  | TConcrete _, anyNil => false
  | TInterface i, anyVal dyn _ => implements dyn i
  | TInterface _, anyNil => true
  end.

Section Calls.

(** How a function value received from the client is called. *)
Variable call : prog -> M (any * option error).

(** ensureConfigured tries to call configure on this slot entry if not
    already configured *)
Definition ensureConfigured (s : nat) : M (option error) :=
  let* e := readEntry s in
  if negb (configured e) then
    match configureFunc e with
    | None => panic nilDereference
    | Some f =>
        let* (v, err) := (fun w => call f (recordCall s w)) in
        match err with
        | Some err => ret (Some err)
        | None =>
            let* e' := readEntry s in
            Printf ("[slot: " +:+ typeName e' +:+ "] configured service of type "
                    +:+ dynTypeString v);;;
            writeEntry s (setConfigured true);;;
            writeEntry s (setValue v);;;
            ret None
        end
    end
  else ret None.

(** func Provide[T any](l *ServiceLocator, slotKey slot[T], value T) T *)
Definition Provide (slotKey : slot) (v : any) : M any :=
  let typeName := getTypeName (slotType slotKey) in
  Printf ("[slot: " +:+ typeName +:+ "] provided value of type "
          +:+ dynTypeString v);;;
  let* s := newSlotEntry {| typeName := typeName; configureFunc := None;
                            configured := true; value := v |} in
  storeProvider slotKey s;;;
  ret v.

(** func ProvideFunc[T any](l *ServiceLocator, slotKey slot[T],
      createFunc func(l *ServiceLocator) (T, error)) *)
Definition ProvideFunc (slotKey : slot) (createFunc : prog) : M unit :=
  let typeName := getTypeName (slotType slotKey) in
  Printf ("[slot: " +:+ typeName +:+ "] inject lazy provider");;;
  let* s := newSlotEntry {| typeName := typeName;
                            configureFunc := Some createFunc;
                            configured := false; value := anyNil |} in
  storeProvider slotKey s.

(** useSlotValue tries to configure the slot for slotKey and if done
    correctly returns it. *)
Definition useSlotValue (slotKey : slot) : M (any * option error) :=
  let T := slotType slotKey in
  let* found := loadProvider slotKey in
  match found with
  | None =>
      ret (zero T, Some (Errorf ("no injected value for type " +:+ getTypeName T)))
  | Some s =>
      let* err := ensureConfigured s in
      match err with
      | Some err => ret (zero T, Some err)
      | None =>
          let* e := readEntry s in
          match typeAssert T (value e) with
          | Some v => ret (v, None)
          | None => panic interfaceConversion
          end
      end
  end.

(** func Use[T any](l *ServiceLocator, slotKey slot[T]) (T, error) *)
Definition Use (slotKey : slot) : M (any * option error) :=
  let* (v, err) := useSlotValue slotKey in
  match err with
  | Some err => ret (zero (slotType slotKey), Some err)
  | None => ret (v, None)
  end.

(** func MustUse[T any](l *ServiceLocator, slotKey slot[T]) T *)
Definition MustUse (slotKey : slot) : M any :=
  let* (v, err) := useSlotValue slotKey in
  match err with
  | Some err => panic (PanicError err)
  | None => ret v
  end.

(** func Invoke[T any](l *ServiceLocator, slotKey slot[T]) error *)
Definition Invoke (slotKey : slot) : M (option error) :=
  let* (_, err) := useSlotValue slotKey in
  match err with
  | Some err => ret (Some err)
  | None => ret None
  end.

(** func MustInvoke[T any](l *ServiceLocator, slotKey slot[T]) *)
Definition MustInvoke (slotKey : slot) : M unit :=
  let* (_, err) := useSlotValue slotKey in
  match err with
  | Some err => panic (PanicError err)
  | None => ret tt
  end.

(** The closure ProvideHook builds around one typed listener [ll]:
    func(l *ServiceLocator, a any) error {
      t, ok := a.(T); if !ok { panic(`illegal state`) }; return ll(l, t) } *)
Definition anyListener (T : goType) (ll : any -> prog) : any -> prog :=
  fun a =>
    match typeAssert T a with
    | Some t => ll t
    | None => DoPanic (PanicString "illegal state")
    end.

(** func ProvideHook[T any](l *ServiceLocator, hookKey hook[T],
      listeners ...Hook[T]) *)
Definition ProvideHook (hookKey : hook) (ls : list (any -> prog)) : M unit :=
  let typeName := getTypeName (hookType hookKey) in
  Printf ("[hook: " +:+ typeName +:+ "] injecting hooks");;;
  let anyListeners := map (anyListener (hookType hookKey)) ls in
  storeHook hookKey {| hookTypeName := typeName; listeners := anyListeners |}.

(** for _, hookFunc := range hookEntry.listeners {
      if err := hookFunc(l, value); err != nil { return err } }
    return nil *)
Fixpoint rangeListeners (fs : list (any -> prog)) (v : any) : M (option error) :=
  match fs with
  | [] => ret None
  | hookFunc :: rest =>
      let* (_, err) := call (hookFunc v) in
      match err with
      | Some err => ret (Some err)
      | None => rangeListeners rest v
      end
  end.

(** func UseHook[T any](l *ServiceLocator, hookKey hook[T], value T) error *)
Definition UseHook (hookKey : hook) (v : any) : M (option error) :=
  let* found := loadHook hookKey in
  match found with
  | None =>
      (* !ok: hookEntry is the nil pointer, and the argument
         hookEntry.typeName of fmt.Errorf is read through it *)
      panic nilDereference
  | Some hookEntry =>
      Printf ("[hook: " +:+ hookTypeName hookEntry
              +:+ "] calling hook with value of type " +:+ dynTypeString v);;;
      rangeListeners (listeners hookEntry) v
  end.

(** func MustUseHook[T any](l *ServiceLocator, hookKey hook[T], value T) *)
Definition MustUseHook (hookKey : hook) (v : any) : M unit :=
  let* err := UseHook hookKey v in
  match err with
  | Some err => panic (PanicError err)
  | None => ret tt
  end.

(** One step of client code, the rest of it run by [rec]. *)
Definition step (rec : prog -> M (any * option error)) (p : prog)
  : M (any * option error) :=
  match p with
  | Return v err => ret (v, err)
  | DoPanic x => panic x
  | DoUse k cont => let* (v, err) := Use k in rec (cont v err)
  | DoMustUse k cont => let* v := MustUse k in rec (cont v)
  | DoInvoke k cont => let* err := Invoke k in rec (cont err)
  | DoMustInvoke k cont => MustInvoke k;;; rec cont
  | DoProvide k v cont => let* v' := Provide k v in rec (cont v')
  | DoProvideFunc k f cont => ProvideFunc k f;;; rec cont
  | DoProvideHook h ls cont => ProvideHook h ls;;; rec cont
  | DoUseHook h v cont => let* err := UseHook h v in rec (cont err)
  | DoMustUseHook h v cont => MustUseHook h v;;; rec cont
  | DoLoad x cont => let* n := loadVar x in rec (cont n)
  | DoStore x n cont => storeVar x n;;; rec cont
  end.

End Calls.

(** Running client code for at most [fuel] steps, calls into the package
    and the functions those call included. *)
Fixpoint exec (fuel : nat) (p : prog) : M (any * option error) :=
  match fuel with
  | O => fun w => (OutOfFuel, w)
  | S n => step (exec n) (exec n) p
  end.

(** ** Vocabulary of the properties *)

(** The entry [Provide] allocates. *)
Definition eagerEntry (k : slot) (v : any) : slotEntry :=
  {| typeName := getTypeName (slotType k); configureFunc := None;
     configured := true; value := v |}.

(** The entry [ProvideFunc] allocates. *)
Definition lazyEntry (k : slot) (createFunc : prog) : slotEntry :=
  {| typeName := getTypeName (slotType k); configureFunc := Some createFunc;
     configured := false; value := anyNil |}.

(** The state [ensureConfigured] leaves when the constructor of the entry
    at [s] has returned [v] in state [w1], where the entry read [e1]: one
    Logger line, then [s.configured = true] and [s.value = v]. *)
Definition storeConfigured (s : nat) (e1 : slotEntry) (v : any) (w1 : state) : state :=
  {| locator := locator w1;
     entries := <[s := setValue v (setConfigured true e1)]> (entries w1);
     Logger := Logger w1 ++ ["[slot: " +:+ typeName e1
                             +:+ "] configured service of type " +:+ dynTypeString v];
     vars := vars w1;
     invoked := invoked w1 |}.

(** How often the constructor of the entry at [s] has been called. *)
Definition timesInvoked (s : nat) (w : state) : nat :=
  count_occ Nat.eq_dec (invoked w) s.

(** No code of the package frees an entry or forgets a call: from [w] to
    [w'] the heap has not shrunk and the record of calls has only been
    extended. *)
Definition grows (w w' : state) : Prop :=
  length (entries w) <= length (entries w') /\
  exists t, invoked w' = t ++ invoked w.

Definition preserves {A} (m : M A) : Prop :=
  forall w r w', m w = (r, w') -> grows w w'.

(** Whatever [m1] answers, short of running out of fuel, [m2] answers too. *)
Definition answers {A} (m1 m2 : M A) : Prop :=
  forall w r w', m1 w = (r, w') -> r <> OutOfFuel -> m2 w = (r, w').

(** The functions [ls], called one after the other on [payload] from
    state [w], all return nil and leave state [w']. *)
Inductive allSucceed (call : prog -> M (any * option error)) (payload : any)
  : list (any -> prog) -> state -> state -> Prop :=
| allSucceed_nil w : allSucceed call payload [] w w
| allSucceed_cons L ls w w1 w2 r :
    call (L payload) w = (Done (r, None), w1) ->
    allSucceed call payload ls w1 w2 ->
    allSucceed call payload (L :: ls) w w2.

(** The state after the Logger line of [UseHook]. *)
Definition hookLogged (e : hookEntry) (v : any) (w : state) : state :=
  {| locator := locator w; entries := entries w;
     Logger := Logger w ++ ["[hook: " +:+ hookTypeName e
                            +:+ "] calling hook with value of type " +:+ dynTypeString v];
     vars := vars w; invoked := invoked w |}.

(** ** Properties *)

(** *** Values and type assertions *)

Lemma getTypeName_typeString T : getTypeName T = typeString T.
Proof. reflexivity. Qed.

Lemma typeAssert_Some T x v : typeAssert T x = Some v -> v = x /\ x <> anyNil.
Proof.
  destruct x as [|dyn d]; simpl; [discriminate|].
  destruct T; [destruct (decide _)|destruct (implements _ _)];
    intros [= <-]; split; congruence.
Qed.

Lemma typeAssert_hasType T x :
  hasType T x = true -> x <> anyNil -> typeAssert T x = Some x.
Proof.
  destruct T, x as [|dyn d]; simpl; try congruence.
  - intros H _. apply bool_decide_eq_true in H. by rewrite decide_True.
  - by intros -> _.
Qed.

(** Among the values a variable of type [T] can hold, the assertion [.(T)]
    rejects the nil interface and nothing else. *)
Lemma typeAssert_rejects_only_nil T x :
  hasType T x = true -> (typeAssert T x = None <-> x = anyNil).
Proof.
  intros HT. split; [|by intros ->].
  destruct (decide (x = anyNil)) as [|Hx]; [done|].
  by rewrite (typeAssert_hasType T x HT Hx).
Qed.

Lemma typeAssert_nil T : typeAssert T anyNil = None.
Proof. reflexivity. Qed.

Lemma hasType_zero T : hasType T (zero T) = true.
Proof. destruct T; simpl; [by apply bool_decide_eq_true|done]. Qed.

(** A nil value of static type [T] exists exactly for interface types. *)
Lemma hasType_nil T : hasType T anyNil = true <-> exists i, T = TInterface i.
Proof.
  destruct T; simpl; split; try discriminate; eauto.
  intros [i [=]].
Qed.

(** *** Registration *)

Lemma Provide_run k v w :
  Provide k v w =
    (Done v,
     {| locator := {| providers := <[k := length (entries w)]> (providers (locator w));
                      hooks := hooks (locator w) |};
        entries := entries w ++ [eagerEntry k v];
        Logger := Logger w ++ ["[slot: " +:+ getTypeName (slotType k)
                               +:+ "] provided value of type " +:+ dynTypeString v];
        vars := vars w;
        invoked := invoked w |}).
Proof. reflexivity. Qed.

Lemma ProvideFunc_run k f w :
  ProvideFunc k f w =
    (Done tt,
     {| locator := {| providers := <[k := length (entries w)]> (providers (locator w));
                      hooks := hooks (locator w) |};
        entries := entries w ++ [lazyEntry k f];
        Logger := Logger w ++ ["[slot: " +:+ getTypeName (slotType k)
                               +:+ "] inject lazy provider"];
        vars := vars w;
        invoked := invoked w |}).
Proof. reflexivity. Qed.

Lemma ProvideHook_run h ls w :
  ProvideHook h ls w =
    (Done tt,
     {| locator := {| providers := providers (locator w);
                      hooks := <[h := {| hookTypeName := getTypeName (hookType h);
                                         listeners := map (anyListener (hookType h)) ls |}]>
                                 (hooks (locator w)) |};
        entries := entries w;
        Logger := Logger w ++ ["[hook: " +:+ getTypeName (hookType h)
                               +:+ "] injecting hooks"];
        vars := vars w;
        invoked := invoked w |}).
Proof. reflexivity. Qed.

Lemma lookup_fresh_entry (es : list slotEntry) e : (es ++ [e]) !! length es = Some e.
Proof. rewrite lookup_app_r by lia. by rewrite Nat.sub_diag. Qed.

(** *** Resolution of a slot that needs no construction *)

Section AnyCall.
Variable call : prog -> M (any * option error).

Lemma ensureConfigured_configured s e w :
  entries w !! s = Some e -> configured e = true ->
  ensureConfigured call s w = (Done None, w).
Proof.
  intros He Hc. unfold ensureConfigured, bind, readEntry.
  rewrite He, Hc. reflexivity.
Qed.

Lemma useSlotValue_configured k s e w :
  providers (locator w) !! k = Some s ->
  entries w !! s = Some e -> configured e = true ->
  useSlotValue call k w =
    match typeAssert (slotType k) (value e) with
    | Some v => (Done (v, None), w)
    | None => (Panicked interfaceConversion, w)
    end.
Proof.
  intros Hk He Hc. unfold useSlotValue, bind at 1, loadProvider.
  rewrite Hk. unfold bind at 1.
  rewrite (ensureConfigured_configured s e w He Hc).
  unfold bind, readEntry. rewrite He.
  destruct (typeAssert _ _); reflexivity.
Qed.

Lemma useSlotValue_missing k w :
  providers (locator w) !! k = None ->
  useSlotValue call k w =
    (Done (zero (slotType k),
           Some (Errorf ("no injected value for type " +:+ getTypeName (slotType k)))),
     w).
Proof.
  intros Hk. unfold useSlotValue, bind, loadProvider.
  rewrite Hk. reflexivity.
Qed.

End AnyCall.

Section Configured.
Variable call : prog -> M (any * option error).

(** A configured entry whose value passes the assertion [.(T)] is
    returned by every accessor, and nothing is written. *)
Lemma Use_configured k s e v w :
  providers (locator w) !! k = Some s ->
  entries w !! s = Some e -> configured e = true ->
  typeAssert (slotType k) (value e) = Some v ->
  v = value e /\
  Use call k w = (Done (v, None), w) /\
  MustUse call k w = (Done v, w) /\
  Invoke call k w = (Done None, w) /\
  MustInvoke call k w = (Done tt, w).
Proof.
  intros Hk He Hc Hv.
  pose proof (useSlotValue_configured call k s e w Hk He Hc) as Hu.
  rewrite Hv in Hu.
  split; [by apply typeAssert_Some in Hv as [-> _]|].
  unfold Use, MustUse, Invoke, MustInvoke, bind. rewrite Hu. auto.
Qed.

(** C5. [Use] and [Invoke] on a token that has no entry return the
    "no injected value" error, [Use] together with the zero value of [T],
    and leave the whole state as it was. *)
Theorem Use_not_registered k w :
  providers (locator w) !! k = None ->
  Use call k w =
    (Done (zero (slotType k),
           Some (Errorf ("no injected value for type " +:+ getTypeName (slotType k)))),
     w) /\
  Invoke call k w =
    (Done (Some (Errorf ("no injected value for type " +:+ getTypeName (slotType k)))),
     w).
Proof.
  intros Hk. unfold Use, Invoke, bind.
  rewrite (useSlotValue_missing call k w Hk). auto.
Qed.

(** C9, where the code departs from it.  A configured entry whose stored
    value is the nil interface is not returned: the assertion
    [slot.value.(T)] of [useSlotValue] panics in [Use], [MustUse] and
    [Invoke] alike.  The state is left as it was. *)
Theorem Use_configured_nil_panics k s e w :
  providers (locator w) !! k = Some s ->
  entries w !! s = Some e -> configured e = true -> value e = anyNil ->
  Use call k w = (Panicked interfaceConversion, w) /\
  MustUse call k w = (Panicked interfaceConversion, w) /\
  Invoke call k w = (Panicked interfaceConversion, w).
Proof.
  intros Hk He Hc Hv.
  pose proof (useSlotValue_configured call k s e w Hk He Hc) as Hu.
  rewrite Hv, typeAssert_nil in Hu.
  unfold Use, MustUse, Invoke, bind. rewrite Hu. auto.
Qed.

(** What [Provide] leaves behind: the token bound to a fresh entry that is
    configured and holds [v]; the value comes back unchanged. *)
Lemma Provide_entry k v w :
  let w' := snd (Provide k v w) in
  fst (Provide k v w) = Done v /\
  providers (locator w') !! k = Some (length (entries w)) /\
  entries w' !! length (entries w) = Some (eagerEntry k v).
Proof.
  rewrite Provide_run. simpl. split; [done|]. split.
  - apply lookup_insert_eq.
  - apply lookup_fresh_entry.
Qed.

(** [Provide] followed by [Use] gives the value back without any call of
    a constructor, for every value the assertion [.(T)] accepts. *)
Lemma Provide_then_Use k v w :
  typeAssert (slotType k) v = Some v ->
  let w' := snd (Provide k v w) in
  Use call k w' = (Done (v, None), w') /\ invoked w' = invoked w.
Proof.
  intros Hv w'.
  destruct (Provide_entry k v w) as (_ & Hk & He).
  split; [|reflexivity].
  by destruct (Use_configured k _ _ v w' Hk He eq_refl Hv) as (_ & HU & _).
Qed.

(** C7, where the code departs from it.  For a token of an interface type
    [Provide] accepts the nil value, stores it in a configured entry and
    returns it; the [Use] that follows does not return it but panics in
    the assertion [slot.value.(T)]. *)
Theorem Provide_nil_then_Use_panics (iface : string) (addr : nat) w :
  let k := mkSlot (TInterface iface) addr in
  let w' := snd (Provide k anyNil w) in
  hasType (slotType k) anyNil = true /\
  fst (Provide k anyNil w) = Done anyNil /\
  providers (locator w') !! k = Some (length (entries w)) /\
  entries w' !! length (entries w) = Some (eagerEntry k anyNil) /\
  Use call k w' = (Panicked interfaceConversion, w').
Proof.
  intros k w'.
  destruct (Provide_entry k anyNil w) as (Hr & Hk & He).
  repeat split; try done.
  by destruct (Use_configured_nil_panics k _ _ w' Hk He eq_refl eq_refl) as (HU & _).
Qed.

(** *** Hooks *)

(** C4, where the code departs from it.  [UseHook] on a token that has no
    entry does not return an error: it panics, reading [typeName]
    through the nil [*hookEntry] while building the error.  The state is
    left as it was. *)
Theorem UseHook_not_registered_panics h v w :
  hooks (locator w) !! h = None ->
  UseHook call h v w = (Panicked nilDereference, w).
Proof.
  intros Hh. unfold UseHook, bind, loadHook. rewrite Hh. reflexivity.
Qed.

(** On a payload the assertion [.(T)] accepts, the closure [ProvideHook]
    builds around a listener is that listener. *)
Lemma anyListener_calls_listener T (ls : list (any -> prog)) v :
  typeAssert T v = Some v ->
  map (fun f => f v) (map (anyListener T) ls) = map (fun L => L v) ls.
Proof.
  intros Hv. induction ls as [|L ls IH]; simpl; [done|].
  rewrite IH. unfold anyListener at 1. by rewrite Hv.
Qed.

(** The loop of [UseHook] depends on the stored functions only through
    what each of them is on the payload. *)
Lemma rangeListeners_ext (fs gs : list (any -> prog)) v w :
  map (fun f => f v) fs = map (fun g => g v) gs ->
  rangeListeners call fs v w = rangeListeners call gs v w.
Proof.
  revert gs w. induction fs as [|f fs IH]; intros [|g gs] w; simpl; try done.
  intros [= Hfg Hrest]. unfold bind. rewrite Hfg.
  destruct (call (g v) w) as [[[r [err|]]|x|] w1]; try done.
  by apply IH.
Qed.

(** C6. After two [ProvideHook] calls on one token the entry holds the
    listeners of the second call, in its order, each inside the closure
    [ProvideHook] puts around it; the registry is the one the second call
    alone would have produced.  On every payload of type [T] other than the
    nil interface the stored closures are, position by position, the
    listeners of the second call, and a dispatch runs the loop of [UseHook]
    over exactly these; the listeners of the first call take no part. *)
Theorem ProvideHook_twice_replaces h ls1 ls2 w :
  let w1 := snd (ProvideHook h ls1 w) in
  let w2 := snd (ProvideHook h ls2 w1) in
  let e2 := {| hookTypeName := getTypeName (hookType h);
               listeners := map (anyListener (hookType h)) ls2 |} in
  fst (ProvideHook h ls1 w) = Done tt /\
  fst (ProvideHook h ls2 w1) = Done tt /\
  hooks (locator w2) !! h = Some e2 /\
  locator w2 = locator (snd (ProvideHook h ls2 w)) /\
  entries w2 = entries w /\
  (forall v,
      hasType (hookType h) v = true -> v <> anyNil ->
      map (fun f => f v) (listeners e2) = map (fun L => L v) ls2 /\
      UseHook call h v w2 = rangeListeners call ls2 v (hookLogged e2 v w2)).
Proof.
  intros w1 w2 e2.
  assert (hooks (locator w2) !! h = Some e2) as Hh.
  { unfold w2, w1. rewrite !ProvideHook_run. simpl. apply lookup_insert_eq. }
  split; [by unfold w1; rewrite ProvideHook_run|].
  split; [by unfold w2; rewrite ProvideHook_run|].
  split; [exact Hh|]. split; [|split].
  - unfold w2, w1. rewrite !ProvideHook_run. simpl. f_equal. apply insert_insert_eq.
  - unfold w2, w1. by rewrite !ProvideHook_run.
  - intros v HT Hnil.
    pose proof (typeAssert_hasType _ _ HT Hnil) as Hv.
    pose proof (anyListener_calls_listener (hookType h) ls2 v Hv) as Hmap.
    split; [exact Hmap|].
    unfold UseHook, bind at 1, loadHook. rewrite Hh.
    unfold bind, Printf.
    by apply rangeListeners_ext.
Qed.

(** C10. [ProvideHook] with no listener registers an entry with an empty
    sequence, and [UseHook] on a token whose entry has no listener
    returns nil whatever the payload and whatever calling a function
    would do; it writes one line to the Logger and nothing else. *)
Theorem UseHook_no_listeners h :
  (forall w,
      fst (ProvideHook h [] w) = Done tt /\
      exists e, hooks (locator (snd (ProvideHook h [] w))) !! h = Some e /\
                listeners e = []) /\
  (forall e v w,
      hooks (locator w) !! h = Some e -> listeners e = [] ->
      exists w',
        UseHook call h v w = (Done None, w') /\
        locator w' = locator w /\ entries w' = entries w /\
        vars w' = vars w /\ invoked w' = invoked w).
Proof.
  split.
  - intros w. rewrite ProvideHook_run. simpl. split; [done|].
    eexists. split; [apply lookup_insert_eq|done].
  - intros e v w Hh Hl. unfold UseHook, bind, loadHook. rewrite Hh.
    unfold Printf. rewrite Hl. simpl. eauto 10.
Qed.

End Configured.

(** *** Tokens *)

(** Two tokens are the same map key exactly when they are of the same
    instance [slot[T]] and hold the same address. *)
Lemma slot_eq_iff (a b : slot) :
  a = b <-> slotType a = slotType b /\ slotAddr a = slotAddr b.
Proof.
  split; [by intros ->|].
  destruct a, b; simpl. by intros [-> ->].
Qed.

(** Tokens made for different types never collide. *)
Lemma NewSlot_distinct_types newZeroSize T1 T2 n m :
  T1 <> T2 -> fst (NewSlot newZeroSize T1 n) <> fst (NewSlot newZeroSize T2 m).
Proof. intros HT [= H _]. contradiction. Qed.

(** With an allocator that hands out a new address each time, two calls
    give two tokens. *)
Lemma NewSlot_fresh_distinct T n m :
  n <> m -> fst (NewSlot freshZeroSize T n) <> fst (NewSlot freshZeroSize T m).
Proof. intros Hn [= H]. contradiction. Qed.

(** C8, where the code departs from it.  Under the gc runtime's allocator
    two calls of [NewSlot] for one type [T] return equal tokens, and so do
    two calls of [NewHook]: a value provided for the second token
    replaces the one provided for the first. *)
Theorem NewSlot_twice_equal_under_gc T call v1 v2 w :
  let '(a, allocs) := NewSlot gcZeroSize T 0 in
  let '(b, _) := NewSlot gcZeroSize T allocs in
  let '(ha, hallocs) := NewHook gcZeroSize T 0 in
  let '(hb, _) := NewHook gcZeroSize T hallocs in
  a = b /\ ha = hb /\
  (typeAssert T v2 = Some v2 ->
   fst (Use call a (snd (Provide b v2 (snd (Provide a v1 w))))) = Done (v2, None)).
Proof.
  unfold NewSlot, NewHook, gcZeroSize. cbv beta iota.
  split; [reflexivity|]. split; [reflexivity|]. intros Hv.
  by destruct (Provide_then_Use call (mkSlot T zerobase) v2
                 (snd (Provide (mkSlot T zerobase) v1 w)) Hv) as [-> _].
Qed.

(** *** Nothing is freed, no call is forgotten *)

Lemma grows_refl w : grows w w.
Proof. split; [lia|]. by exists []. Qed.

Lemma grows_trans w1 w2 w3 : grows w1 w2 -> grows w2 w3 -> grows w1 w3.
Proof.
  intros [H1 [t1 E1]] [H2 [t2 E2]]. split; [lia|].
  exists (t2 ++ t1). by rewrite E2, E1, app_assoc.
Qed.

Lemma grows_lookup w w' s e :
  grows w w' -> entries w !! s = Some e -> exists e', entries w' !! s = Some e'.
Proof.
  intros [Hlen _] He. apply lookup_lt_Some in He.
  apply lookup_lt_is_Some_2. lia.
Qed.

Lemma grows_timesInvoked w w' s :
  grows w w' -> timesInvoked s w <= timesInvoked s w'.
Proof.
  intros [_ [t E]]. unfold timesInvoked. rewrite E, count_occ_app. lia.
Qed.

Lemma preserves_ret {A} (a : A) : preserves (ret a).
Proof. intros w r w' [= _ <-]. apply grows_refl. Qed.

Lemma preserves_panic {A} x : preserves (@panic A x).
Proof. intros w r w' [= _ <-]. apply grows_refl. Qed.

Lemma preserves_bind {A B} (m : M A) (f : A -> M B) :
  preserves m -> (forall a, preserves (f a)) -> preserves (bind m f).
Proof.
  intros Hm Hf w r w'. unfold bind.
  destruct (m w) as [[a|x|] w1] eqn:E; intros H.
  - eapply grows_trans; [by eapply Hm|by eapply Hf].
  - injection H as _ <-. by eapply Hm.
  - injection H as _ <-. by eapply Hm.
Qed.

Lemma preserves_Printf line : preserves (Printf line).
Proof. intros w r w' [= _ <-]. split; [done|by exists []]. Qed.

Lemma preserves_newSlotEntry e : preserves (newSlotEntry e).
Proof.
  intros w r w' [= _ <-]. split; [|by exists []].
  simpl. rewrite length_app. lia.
Qed.

Lemma preserves_readEntry s : preserves (readEntry s).
Proof.
  intros w r w'. unfold readEntry.
  destruct (entries w !! s); intros [= _ <-]; apply grows_refl.
Qed.

Lemma preserves_writeEntry s f : preserves (writeEntry s f).
Proof.
  intros w r w'. unfold writeEntry.
  destruct (entries w !! s); intros [= _ <-]; [|apply grows_refl].
  split; [|by exists []]. simpl. by rewrite length_insert.
Qed.

Lemma preserves_storeProvider k s : preserves (storeProvider k s).
Proof. intros w r w' [= _ <-]. split; [done|by exists []]. Qed.

Lemma preserves_loadProvider k : preserves (loadProvider k).
Proof. intros w r w' [= _ <-]. apply grows_refl. Qed.

Lemma preserves_storeHook h e : preserves (storeHook h e).
Proof. intros w r w' [= _ <-]. split; [done|by exists []]. Qed.

Lemma preserves_loadHook h : preserves (loadHook h).
Proof. intros w r w' [= _ <-]. apply grows_refl. Qed.

Lemma preserves_loadVar x : preserves (loadVar x).
Proof. intros w r w' [= _ <-]. apply grows_refl. Qed.

Lemma preserves_storeVar x n : preserves (storeVar x n).
Proof. intros w r w' [= _ <-]. split; [done|by exists []]. Qed.

Lemma preserves_recorded {A} (m : M A) s :
  preserves m -> preserves (fun w => m (recordCall s w)).
Proof.
  intros Hm w r w' H. eapply grows_trans; [|by eapply Hm].
  split; [done|]. by exists [s].
Qed.

Create HintDb preserves.
#[local] Hint Resolve preserves_ret preserves_panic preserves_Printf
  preserves_newSlotEntry preserves_readEntry preserves_writeEntry
  preserves_storeProvider preserves_loadProvider preserves_storeHook
  preserves_loadHook preserves_loadVar preserves_storeVar
  preserves_recorded : preserves.

Ltac preserves_step :=
  match goal with
  | |- preserves (bind _ _) => apply preserves_bind; [|intros ?]
  | |- preserves (match ?x with _ => _ end) => destruct x
  | |- preserves _ => solve [auto with preserves]
  end.

Section PreservedByCalls.
Variable call : prog -> M (any * option error).
Hypothesis call_preserves : forall p, preserves (call p).

Lemma ensureConfigured_preserves s : preserves (ensureConfigured call s).
Proof. unfold ensureConfigured. repeat preserves_step. Qed.

Lemma useSlotValue_preserves k : preserves (useSlotValue call k).
Proof.
  pose proof ensureConfigured_preserves.
  unfold useSlotValue. cbv zeta. repeat preserves_step.
Qed.

Lemma Use_preserves k : preserves (Use call k).
Proof. pose proof useSlotValue_preserves. unfold Use. repeat preserves_step. Qed.

Lemma MustUse_preserves k : preserves (MustUse call k).
Proof. pose proof useSlotValue_preserves. unfold MustUse. repeat preserves_step. Qed.

Lemma Invoke_preserves k : preserves (Invoke call k).
Proof. pose proof useSlotValue_preserves. unfold Invoke. repeat preserves_step. Qed.

Lemma MustInvoke_preserves k : preserves (MustInvoke call k).
Proof. pose proof useSlotValue_preserves. unfold MustInvoke. repeat preserves_step. Qed.

Lemma Provide_preserves k v : preserves (Provide k v).
Proof. unfold Provide. cbv zeta. repeat preserves_step. Qed.

Lemma ProvideFunc_preserves k f : preserves (ProvideFunc k f).
Proof. unfold ProvideFunc. cbv zeta. repeat preserves_step. Qed.

Lemma ProvideHook_preserves h ls : preserves (ProvideHook h ls).
Proof. unfold ProvideHook. cbv zeta. repeat preserves_step. Qed.

Lemma rangeListeners_preserves fs v : preserves (rangeListeners call fs v).
Proof. induction fs as [|f fs IH]; simpl; repeat preserves_step. Qed.

Lemma UseHook_preserves h v : preserves (UseHook call h v).
Proof. pose proof rangeListeners_preserves. unfold UseHook. repeat preserves_step. Qed.

Lemma MustUseHook_preserves h v : preserves (MustUseHook call h v).
Proof. pose proof UseHook_preserves. unfold MustUseHook. repeat preserves_step. Qed.

Lemma step_preserves rec p :
  (forall q, preserves (rec q)) -> preserves (step call rec p).
Proof.
  intros Hrec.
  pose proof Use_preserves. pose proof MustUse_preserves.
  pose proof Invoke_preserves. pose proof MustInvoke_preserves.
  pose proof Provide_preserves. pose proof ProvideFunc_preserves.
  pose proof ProvideHook_preserves. pose proof UseHook_preserves.
  pose proof MustUseHook_preserves.
  destruct p; simpl; repeat preserves_step.
Qed.

End PreservedByCalls.

Lemma exec_preserves fuel p : preserves (exec fuel p).
Proof.
  revert p. induction fuel as [|n IH]; intros p; simpl.
  - intros w r w' [= _ <-]. apply grows_refl.
  - by apply step_preserves.
Qed.

(** *** More fuel changes no answer *)

Lemma answers_refl {A} (m : M A) : answers m m.
Proof. by intros w r w' H _. Qed.

Lemma answers_bind {A B} (m1 m2 : M A) (f1 f2 : A -> M B) :
  answers m1 m2 -> (forall a, answers (f1 a) (f2 a)) ->
  answers (bind m1 f1) (bind m2 f2).
Proof.
  intros Hm Hf w r w'. unfold bind.
  destruct (m1 w) as [[a|x|] w1] eqn:E; intros H Hr.
  - rewrite (Hm w _ _ E) by done. by apply Hf.
  - rewrite (Hm w _ _ E) by done. exact H.
  - injection H as <- _. contradiction.
Qed.

Ltac answers_step :=
  match goal with
  | |- answers (bind _ _) (bind _ _) => apply answers_bind; [|intros ?]
  | |- answers (match ?x with _ => _ end) (match ?x with _ => _ end) => destruct x
  | |- answers ?m ?m => apply answers_refl
  | |- answers _ _ => solve [auto]
  end.

Section MoreFuel.
Variables call1 call2 : prog -> M (any * option error).
Hypothesis call_answers : forall p, answers (call1 p) (call2 p).

Lemma ensureConfigured_answers s :
  answers (ensureConfigured call1 s) (ensureConfigured call2 s).
Proof.
  unfold ensureConfigured. repeat answers_step.
  intros w r w'. apply call_answers.
Qed.

Lemma useSlotValue_answers k : answers (useSlotValue call1 k) (useSlotValue call2 k).
Proof.
  pose proof ensureConfigured_answers.
  unfold useSlotValue. cbv zeta. repeat answers_step.
Qed.

Lemma rangeListeners_answers fs v :
  answers (rangeListeners call1 fs v) (rangeListeners call2 fs v).
Proof. induction fs as [|f fs IH]; simpl; repeat answers_step. Qed.

Lemma UseHook_answers h v : answers (UseHook call1 h v) (UseHook call2 h v).
Proof. pose proof rangeListeners_answers. unfold UseHook. repeat answers_step. Qed.

Lemma step_answers rec1 rec2 p :
  (forall q, answers (rec1 q) (rec2 q)) ->
  answers (step call1 rec1 p) (step call2 rec2 p).
Proof.
  intros Hrec.
  pose proof useSlotValue_answers. pose proof UseHook_answers.
  destruct p; simpl; unfold Use, MustUse, Invoke, MustInvoke, MustUseHook;
    repeat answers_step.
Qed.

End MoreFuel.

Lemma exec_S_answers fuel p : answers (exec fuel p) (exec (S fuel) p).
Proof.
  revert p. induction fuel as [|n IH]; intros p.
  - intros w r w' [= <- _] Hr. contradiction.
  - change (answers (step (exec n) (exec n) p) (step (exec (S n)) (exec (S n)) p)).
    by apply step_answers.
Qed.

Lemma exec_more_fuel n m p : n <= m -> answers (exec n p) (exec m p).
Proof.
  induction 1 as [|m _ IH]; [apply answers_refl|].
  intros w r w' H Hr. apply exec_S_answers; [|done]. by apply IH.
Qed.

(** *** Resolution of a slot that needs construction *)

Section Construction.
Variable call : prog -> M (any * option error).

Lemma ensureConfigured_constructs s e c v w w1 e1 :
  entries w !! s = Some e -> configured e = false -> configureFunc e = Some c ->
  call c (recordCall s w) = (Done (v, None), w1) ->
  entries w1 !! s = Some e1 ->
  ensureConfigured call s w = (Done None, storeConfigured s e1 v w1).
Proof.
  intros He Hc Hf Hcall He1.
  unfold ensureConfigured, bind at 1, readEntry at 1. rewrite He, Hc, Hf. simpl.
  unfold bind at 1. rewrite Hcall.
  unfold bind at 1, readEntry. rewrite He1.
  unfold bind at 1, Printf.
  unfold bind at 1, writeEntry at 1. simpl. rewrite He1.
  unfold bind, writeEntry. simpl.
  rewrite list_lookup_insert_eq by (by eapply lookup_lt_Some).
  unfold ret, storeConfigured, setEntries. simpl.
  by rewrite list_insert_insert_eq.
Qed.

Lemma ensureConfigured_fails s e c v err w w1 :
  entries w !! s = Some e -> configured e = false -> configureFunc e = Some c ->
  call c (recordCall s w) = (Done (v, Some err), w1) ->
  ensureConfigured call s w = (Done (Some err), w1).
Proof.
  intros He Hc Hf Hcall.
  unfold ensureConfigured, bind at 1, readEntry at 1. rewrite He, Hc, Hf. simpl.
  unfold bind. rewrite Hcall. reflexivity.
Qed.

(** A recorded call followed by steps that forget nothing shows in the
    record, whatever comes of it. *)
Lemma recorded_call_counts {A} s f (k : any * option error -> M A) w r w' :
  (forall p, preserves (call p)) -> (forall a, preserves (k a)) ->
  bind (fun w0 => call f (recordCall s w0)) k w = (r, w') ->
  timesInvoked s w < timesInvoked s w'.
Proof.
  intros Hcall Hk H.
  assert (grows (recordCall s w) w') as Hg.
  { revert H. unfold bind.
    destruct (call f (recordCall s w)) as [[a|x|] w1] eqn:E; intros H.
    - eapply grows_trans; [by eapply Hcall|by eapply Hk].
    - injection H as _ <-. by eapply Hcall.
    - injection H as _ <-. by eapply Hcall. }
  apply (grows_timesInvoked _ _ s) in Hg.
  unfold timesInvoked in *. simpl in Hg.
  destruct (Nat.eq_dec s s); [lia|congruence].
Qed.

(** On an unconfigured entry the call of the constructor is the first
    thing that happens. *)
Lemma ensureConfigured_calls s e c w r w' :
  entries w !! s = Some e -> configured e = false -> configureFunc e = Some c ->
  (forall p, preserves (call p)) ->
  ensureConfigured call s w = (r, w') ->
  timesInvoked s w < timesInvoked s w'.
Proof.
  intros He Hc Hf Hpres.
  unfold ensureConfigured, bind at 1, readEntry at 1. rewrite He, Hc, Hf. simpl.
  apply recorded_call_counts; [done|].
  intros [v err]. repeat preserves_step.
Qed.

Lemma storeConfigured_entry s e1 v w1 :
  entries w1 !! s = Some e1 ->
  entries (storeConfigured s e1 v w1) !! s = Some (setValue v (setConfigured true e1)).
Proof.
  intros He1. simpl. apply list_lookup_insert_eq. by eapply lookup_lt_Some.
Qed.

End Construction.

Section Resolution.
Variable call : prog -> M (any * option error).

Lemma useSlotValue_constructs k s e c v w w1 e1 :
  providers (locator w) !! k = Some s ->
  entries w !! s = Some e -> configured e = false -> configureFunc e = Some c ->
  call c (recordCall s w) = (Done (v, None), w1) ->
  entries w1 !! s = Some e1 ->
  useSlotValue call k w =
    match typeAssert (slotType k) v with
    | Some v' => (Done (v', None), storeConfigured s e1 v w1)
    | None => (Panicked interfaceConversion, storeConfigured s e1 v w1)
    end.
Proof.
  intros Hk He Hc Hf Hcall He1.
  unfold useSlotValue, bind at 1, loadProvider. rewrite Hk.
  unfold bind at 1.
  rewrite (ensureConfigured_constructs call s e c v w w1 e1 He Hc Hf Hcall He1).
  unfold bind, readEntry.
  rewrite (storeConfigured_entry s e1 v w1 He1). simpl.
  destruct (typeAssert _ _); reflexivity.
Qed.

Lemma useSlotValue_fails k s e c v err w w1 :
  providers (locator w) !! k = Some s ->
  entries w !! s = Some e -> configured e = false -> configureFunc e = Some c ->
  call c (recordCall s w) = (Done (v, Some err), w1) ->
  useSlotValue call k w = (Done (zero (slotType k), Some err), w1).
Proof.
  intros Hk He Hc Hf Hcall.
  unfold useSlotValue, bind at 1, loadProvider. rewrite Hk.
  unfold bind.
  rewrite (ensureConfigured_fails call s e c v err w w1 He Hc Hf Hcall).
  reflexivity.
Qed.

Lemma useSlotValue_calls k s e c w r w' :
  providers (locator w) !! k = Some s ->
  entries w !! s = Some e -> configured e = false -> configureFunc e = Some c ->
  (forall p, preserves (call p)) ->
  useSlotValue call k w = (r, w') ->
  timesInvoked s w < timesInvoked s w'.
Proof.
  intros Hk He Hc Hf Hpres.
  unfold useSlotValue, bind at 1, loadProvider. rewrite Hk.
  unfold bind at 1.
  destruct (ensureConfigured call s w) as [[[err|]|x|] w1] eqn:E;
    apply (ensureConfigured_calls call s e c w _ w1 He Hc Hf Hpres) in E.
  - by intros [= _ <-].
  - unfold bind, readEntry. destruct (entries w1 !! s) as [e1|].
    + destruct (typeAssert _ _); by intros [= _ <-].
    + by intros [= _ <-].
  - by intros [= _ <-].
  - by intros [= _ <-].
Qed.

Lemma Use_calls k s e c w r w' :
  providers (locator w) !! k = Some s ->
  entries w !! s = Some e -> configured e = false -> configureFunc e = Some c ->
  (forall p, preserves (call p)) ->
  Use call k w = (r, w') ->
  timesInvoked s w < timesInvoked s w'.
Proof.
  intros Hk He Hc Hf Hpres. unfold Use, bind.
  destruct (useSlotValue call k w) as [[[v [err|]]|x|] w1] eqn:E;
    apply (useSlotValue_calls k s e c w _ w1 Hk He Hc Hf Hpres) in E;
    by intros [= _ <-].
Qed.

End Resolution.

(** [ProvideFunc] leaves the token bound to a fresh, unconfigured entry
    that holds the constructor, which it has not called. *)
Lemma ProvideFunc_entry k f w :
  let w' := snd (ProvideFunc k f w) in
  fst (ProvideFunc k f w) = Done tt /\
  providers (locator w') !! k = Some (length (entries w)) /\
  entries w' !! length (entries w) = Some (lazyEntry k f) /\
  invoked w' = invoked w.
Proof.
  rewrite ProvideFunc_run. simpl. split; [done|]. split; [|split; [|done]].
  - apply lookup_insert_eq.
  - apply lookup_fresh_entry.
Qed.


(** C3 (amended).  Take a slot whose entry is unconfigured and holds the
    constructor [c].  If [c], called by [Use], returns an error and has
    left the binding of the token and its entry as they were, then [Use]
    returns the zero value with that very error, the state is the one the
    constructor left (the entry still unconfigured, nothing stored in
    it), and any further [Use] calls the constructor again. *)
Theorem Use_constructor_failure n k s e c v err w0 w1 :
  providers (locator w0) !! k = Some s ->
  entries w0 !! s = Some e -> configured e = false -> configureFunc e = Some c ->
  exec n c (recordCall s w0) = (Done (v, Some err), w1) ->
  providers (locator w1) !! k = Some s ->
  entries w1 !! s = Some e ->
  (forall m, n <= m ->
     Use (exec m) k w0 = (Done (zero (slotType k), Some err), w1)) /\
  (providers (locator (snd (Use (exec n) k w0))) !! k = Some s /\
   entries (snd (Use (exec n) k w0)) !! s = Some e) /\
  (forall m r w2,
      Use (exec m) k w1 = (r, w2) -> timesInvoked s w1 < timesInvoked s w2).
Proof.
  intros Hk He Hc Hf Hcall Hk1 He1.
  assert (forall m, n <= m ->
            Use (exec m) k w0 = (Done (zero (slotType k), Some err), w1)) as HU.
  { intros m Hm.
    assert (exec m c (recordCall s w0) = (Done (v, Some err), w1)) as Hcall'
      by (by apply (exec_more_fuel n m c Hm)).
    unfold Use, bind.
    by rewrite (useSlotValue_fails (exec m) k s e c v err w0 w1 Hk He Hc Hf Hcall'). }
  split; [exact HU|]. split.
  - rewrite (HU n) by lia. simpl. auto.
  - intros m r w2. apply (Use_calls (exec m) k s e c w1 r w2 Hk1 He1 Hc Hf).
    intros p. apply exec_preserves.
Qed.

(** *** Dispatch of a hook *)

Section Dispatch.
Variable call : prog -> M (any * option error).

Lemma anyListener_accepts T L v t :
  typeAssert T v = Some t -> anyListener T L v = L v.
Proof.
  intros Hv. unfold anyListener. rewrite Hv.
  by apply typeAssert_Some in Hv as [-> _].
Qed.

Lemma allSucceed_anyListener T v ls w w' :
  typeAssert T v = Some v ->
  allSucceed call v ls w w' ->
  allSucceed call v (map (anyListener T) ls) w w'.
Proof.
  intros Hv. induction 1 as [|L ls w w1 w2 r Hc _ IH]; simpl.
  - constructor.
  - econstructor; [|exact IH]. by rewrite (anyListener_accepts T L v v Hv).
Qed.

Lemma rangeListeners_all fs v w w' :
  allSucceed call v fs w w' -> rangeListeners call fs v w = (Done None, w').
Proof.
  induction 1 as [|L ls w w1 w2 r Hc _ IH]; simpl; [done|].
  unfold bind. by rewrite Hc.
Qed.

Lemma rangeListeners_first_failure pre f post v w w1 w2 r err :
  allSucceed call v pre w w1 ->
  call (f v) w1 = (Done (r, Some err), w2) ->
  rangeListeners call (pre ++ f :: post) v w = (Done (Some err), w2).
Proof.
  intros Hpre Hf. induction Hpre as [|L ls w w1 w3 r' Hc _ IH]; simpl.
  - unfold bind. by rewrite Hf.
  - unfold bind at 1. rewrite Hc. by apply IH.
Qed.

(** Dispatch in registration order, for every payload the assertion
    [.(T)] accepts.  If all listeners return nil one after the other,
    [UseHook] returns nil in the state the last one left.  If the
    listeners before [L] return nil and [L] returns an error, [UseHook]
    returns that error in the state [L] left: no later listener has run,
    and what the earlier ones did stays done. *)
Lemma UseHook_in_order h e ls v w :
  hooks (locator w) !! h = Some e ->
  listeners e = map (anyListener (hookType h)) ls ->
  typeAssert (hookType h) v = Some v ->
  (forall w',
      allSucceed call v ls (hookLogged e v w) w' ->
      UseHook call h v w = (Done None, w')) /\
  (forall pre L post w1 w2 r err,
      ls = pre ++ L :: post ->
      allSucceed call v pre (hookLogged e v w) w1 ->
      call (L v) w1 = (Done (r, Some err), w2) ->
      UseHook call h v w = (Done (Some err), w2)).
Proof.
  intros Hh Hl Hv. split.
  - intros w' Hall. unfold UseHook, bind, loadHook. rewrite Hh. simpl.
    rewrite Hl. apply rangeListeners_all.
    by apply allSucceed_anyListener.
  - intros pre L post w1 w2 r err -> Hpre HL.
    unfold UseHook, bind, loadHook. rewrite Hh. simpl.
    rewrite Hl, map_app. simpl.
    eapply rangeListeners_first_failure.
    + apply allSucceed_anyListener; [exact Hv|exact Hpre].
    + by rewrite (anyListener_accepts _ L v v Hv).
Qed.

End Dispatch.

(** C2, where the code departs from it.  On a hook of an interface type
    registered with at least one listener, [UseHook] with the nil value as
    payload calls no listener: the closure around the first one fails its
    assertion [a.(T)] and panics with "illegal state".  Only the Logger
    line of [UseHook] has been written. *)
Theorem UseHook_nil_payload_panics n (iface : string) (addr : nat) L ls w :
  let h := mkHook (TInterface iface) addr in
  let w1 := snd (ProvideHook h (L :: ls) w) in
  let e := {| hookTypeName := getTypeName (hookType h);
              listeners := map (anyListener (hookType h)) (L :: ls) |} in
  hasType (hookType h) anyNil = true /\
  hooks (locator w1) !! h = Some e /\
  UseHook (exec (S n)) h anyNil w1
    = (Panicked (PanicString "illegal state"), hookLogged e anyNil w1).
Proof.
  intros h w1 e. split; [done|].
  assert (hooks (locator w1) !! h = Some e) as Hh.
  { unfold w1. rewrite ProvideHook_run. simpl. apply lookup_insert_eq. }
  split; [exact Hh|].
  unfold UseHook, bind, loadHook. rewrite Hh. reflexivity.
Qed.

(** ** Further properties of the package *)

(** *** Vocabulary *)

(** From [e] to [e'] an entry keeps its label and its constructor, and does
    not go back from configured to unconfigured. *)
Definition entryKept (e e' : slotEntry) : Prop :=
  typeName e' = typeName e /\
  configureFunc e' = configureFunc e /\
  (configured e = true -> configured e' = true).

(** Every token of [providers] points to a live entry, and every entry
    that is not configured has a constructor to call. *)
Definition wellFormed (w : state) : Prop :=
  (forall k s, providers (locator w) !! k = Some s -> s < length (entries w)) /\
  (forall s e, entries w !! s = Some e ->
               configured e = false -> is_Some (configureFunc e)).

(** From [w] to [w'] no token of either map has lost its binding, every
    entry is still there and kept, and a well-formed state has stayed so. *)
Definition keeps (w w' : state) : Prop :=
  (forall k, is_Some (providers (locator w) !! k) ->
             is_Some (providers (locator w') !! k)) /\
  (forall h, is_Some (hooks (locator w) !! h) ->
             is_Some (hooks (locator w') !! h)) /\
  (forall s e, entries w !! s = Some e ->
               exists e', entries w' !! s = Some e' /\ entryKept e e') /\
  (wellFormed w -> wellFormed w').

Definition retains {A} (m : M A) : Prop :=
  forall w r w', m w = (r, w') -> keeps w w'.

(** What [Invoke], [MustUse] and [MustInvoke] make of the outcome of [Use]. *)
Definition asInvoke (r : outcome (any * option error)) : outcome (option error) :=
  match r with
  | Done (_, err) => Done err
  | Panicked x => Panicked x
  | OutOfFuel => OutOfFuel
  end.

Definition asMustUse (r : outcome (any * option error)) : outcome any :=
  match r with
  | Done (v, None) => Done v
  | Done (_, Some err) => Panicked (PanicError err)
  | Panicked x => Panicked x
  | OutOfFuel => OutOfFuel
  end.

(** What [MustUseHook] makes of the outcome of [UseHook]. *)
Definition asMustUseHook (r : outcome (option error)) : outcome unit :=
  match r with
  | Done None => Done tt
  | Done (Some err) => Panicked (PanicError err)
  | Panicked x => Panicked x
  | OutOfFuel => OutOfFuel
  end.

Definition asMustInvoke (r : outcome (any * option error)) : outcome unit :=
  match r with
  | Done (_, None) => Done tt
  | Done (_, Some err) => Panicked (PanicError err)
  | Panicked x => Panicked x
  | OutOfFuel => OutOfFuel
  end.

(** *** Nothing registered is lost *)

Lemma entryKept_refl e : entryKept e e.
Proof. by repeat split. Qed.

Lemma entryKept_trans e1 e2 e3 :
  entryKept e1 e2 -> entryKept e2 e3 -> entryKept e1 e3.
Proof.
  intros (H1 & H2 & H3) (H4 & H5 & H6).
  repeat split; [congruence|congruence|auto].
Qed.

Lemma keeps_refl w : keeps w w.
Proof.
  split; [done|]. split; [done|]. split; [|done].
  intros s e He. exists e. split; [done|apply entryKept_refl].
Qed.

Lemma keeps_trans w1 w2 w3 : keeps w1 w2 -> keeps w2 w3 -> keeps w1 w3.
Proof.
  intros (P1 & H1 & E1 & W1) (P2 & H2 & E2 & W2).
  split; [|split; [|split]]; [by auto|by auto| |by auto].
  intros s e He.
  destruct (E1 s e He) as (e' & He' & K1).
  destruct (E2 s e' He') as (e'' & He'' & K2).
  exists e''. split; [done|]. by eapply entryKept_trans.
Qed.

(** A step that leaves the registry and the heap alone keeps everything. *)
Lemma keeps_same w w' :
  locator w' = locator w -> entries w' = entries w -> keeps w w'.
Proof.
  intros Hl He. unfold keeps, wellFormed. rewrite Hl, He.
  split; [done|]. split; [done|]. split; [|done].
  intros s e Hs. exists e. split; [done|apply entryKept_refl].
Qed.

Lemma retains_ret {A} (a : A) : retains (ret a).
Proof. intros w r w' [= _ <-]. apply keeps_refl. Qed.

Lemma retains_panic {A} x : retains (@panic A x).
Proof. intros w r w' [= _ <-]. apply keeps_refl. Qed.

Lemma retains_bind {A B} (m : M A) (f : A -> M B) :
  retains m -> (forall a, retains (f a)) -> retains (bind m f).
Proof.
  intros Hm Hf w r w'. unfold bind.
  destruct (m w) as [[a|x|] w1] eqn:E; intros H.
  - eapply keeps_trans; [by eapply Hm|by eapply Hf].
  - injection H as _ <-. by eapply Hm.
  - injection H as _ <-. by eapply Hm.
Qed.

Lemma retains_Printf line : retains (Printf line).
Proof. intros w r w' [= _ <-]. by apply keeps_same. Qed.

Lemma retains_readEntry s : retains (readEntry s).
Proof.
  intros w r w'. unfold readEntry.
  destruct (entries w !! s); intros [= _ <-]; apply keeps_refl.
Qed.

Lemma retains_loadProvider k : retains (loadProvider k).
Proof. intros w r w' [= _ <-]. apply keeps_refl. Qed.

Lemma retains_loadHook h : retains (loadHook h).
Proof. intros w r w' [= _ <-]. apply keeps_refl. Qed.

Lemma retains_loadVar x : retains (loadVar x).
Proof. intros w r w' [= _ <-]. apply keeps_refl. Qed.

Lemma retains_storeVar x n : retains (storeVar x n).
Proof. intros w r w' [= _ <-]. by apply keeps_same. Qed.

Lemma retains_recorded {A} (m : M A) s :
  retains m -> retains (fun w => m (recordCall s w)).
Proof.
  intros Hm w r w' H. eapply keeps_trans; [|by eapply Hm].
  by apply keeps_same.
Qed.

Lemma retains_storeHook h e : retains (storeHook h e).
Proof.
  intros w r w' [= _ <-]. split; [|split; [|split]]; simpl.
  - done.
  - intros h' Hh'. destruct (decide (h = h')) as [->|Hne].
    + rewrite lookup_insert_eq. eauto.
    + by rewrite lookup_insert_ne.
  - intros s e0 Hs. exists e0. split; [done|apply entryKept_refl].
  - done.
Qed.

Lemma retains_writeEntry s f :
  (forall e, entryKept e (f e)) -> retains (writeEntry s f).
Proof.
  intros Hf w r w'. unfold writeEntry.
  destruct (entries w !! s) as [e|] eqn:He; intros [= _ <-]; [|apply keeps_refl].
  assert (forall s' e0, entries w !! s' = Some e0 ->
            exists e', <[s := f e]> (entries w) !! s' = Some e' /\ entryKept e0 e') as Hkept.
  { intros s' e0 Hs'. destruct (decide (s = s')) as [<-|Hne].
    - exists (f e). rewrite list_lookup_insert_eq by (by eapply lookup_lt_Some).
      split; [done|]. replace e0 with e by congruence. apply Hf.
    - exists e0. rewrite list_lookup_insert_ne by done.
      split; [done|apply entryKept_refl]. }
  split; [|split; [|split]]; simpl; [done|done|exact Hkept|].
  intros [Hp Hc]. split; simpl.
  - intros k s0 Hk. rewrite length_insert. by eapply Hp.
  - intros s' e' Hs' Hunc. destruct (decide (s = s')) as [<-|Hne].
    + rewrite list_lookup_insert_eq in Hs' by (by eapply lookup_lt_Some).
      injection Hs' as <-. destruct (Hf e) as (_ & Hfun & Hmono).
      rewrite Hfun. apply (Hc s e He).
      destruct (configured e); [|done]. by rewrite Hmono in Hunc.
    + rewrite list_lookup_insert_ne in Hs' by done. by eapply Hc.
Qed.

Lemma entryKept_setConfigured e : entryKept e (setConfigured true e).
Proof. by repeat split. Qed.

Lemma entryKept_setValue v e : entryKept e (setValue v e).
Proof. by repeat split. Qed.

(** Allocating an entry that is configured or has a constructor, and
    binding a token to it: what [Provide] and [ProvideFunc] do to the
    registry. *)
Lemma keeps_register k e w w' :
  (configured e = false -> is_Some (configureFunc e)) ->
  providers (locator w') = <[k := length (entries w)]> (providers (locator w)) ->
  hooks (locator w') = hooks (locator w) ->
  entries w' = entries w ++ [e] ->
  keeps w w'.
Proof.
  intros Hok Hp Hh He. unfold keeps, wellFormed. rewrite Hp, Hh, He.
  split; [|split; [|split]].
  - intros k' Hk'. destruct (decide (k = k')) as [->|Hne].
    + rewrite lookup_insert_eq. eauto.
    + by rewrite lookup_insert_ne.
  - done.
  - intros s e0 Hs. exists e0. split; [|apply entryKept_refl].
    by apply lookup_app_l_Some.
  - intros [Hwp Hwc]. split.
    + intros k' s0. rewrite length_app. simpl.
      destruct (decide (k = k')) as [->|Hne].
      * rewrite lookup_insert_eq. intros [= <-]. lia.
      * rewrite lookup_insert_ne by done. intros Hk'.
        specialize (Hwp _ _ Hk'). lia.
    + intros s e0 Hs Hunc.
      apply lookup_app_Some in Hs as [Hs|[_ Hs]]; [by eapply Hwc|].
      apply list_lookup_singleton_Some in Hs as [_ <-]. by apply Hok.
Qed.

Lemma Provide_retains k v : retains (Provide k v).
Proof.
  intros w r w'. rewrite Provide_run. intros [= _ <-].
  by apply (keeps_register k (eagerEntry k v)).
Qed.

Lemma ProvideFunc_retains k f : retains (ProvideFunc k f).
Proof.
  intros w r w'. rewrite ProvideFunc_run. intros [= _ <-].
  apply (keeps_register k (lazyEntry k f)); try done.
Qed.

Lemma ProvideHook_retains h ls : retains (ProvideHook h ls).
Proof.
  unfold ProvideHook. cbv zeta.
  apply retains_bind; [apply retains_Printf|intros _; apply retains_storeHook].
Qed.

Create HintDb retains.
#[local] Hint Resolve retains_ret retains_panic retains_Printf
  retains_readEntry retains_loadProvider retains_loadHook retains_loadVar
  retains_storeVar retains_recorded retains_storeHook retains_writeEntry
  entryKept_setConfigured entryKept_setValue
  Provide_retains ProvideFunc_retains ProvideHook_retains : retains.

Ltac retains_step :=
  match goal with
  | |- retains (bind _ _) => apply retains_bind; [|intros ?]
  | |- retains (match ?x with _ => _ end) => destruct x
  | |- retains _ => solve [auto with retains]
  end.

Section RetainedByCalls.
Variable call : prog -> M (any * option error).
Hypothesis call_retains : forall p, retains (call p).

Lemma ensureConfigured_retains s : retains (ensureConfigured call s).
Proof. unfold ensureConfigured. repeat retains_step. Qed.

Lemma useSlotValue_retains k : retains (useSlotValue call k).
Proof.
  pose proof ensureConfigured_retains.
  unfold useSlotValue. cbv zeta. repeat retains_step.
Qed.

Lemma rangeListeners_retains fs v : retains (rangeListeners call fs v).
Proof. induction fs as [|f fs IH]; simpl; repeat retains_step. Qed.

Lemma UseHook_retains h v : retains (UseHook call h v).
Proof. pose proof rangeListeners_retains. unfold UseHook. repeat retains_step. Qed.

Lemma step_retains rec p :
  (forall q, retains (rec q)) -> retains (step call rec p).
Proof.
  intros Hrec.
  pose proof useSlotValue_retains. pose proof UseHook_retains.
  destruct p; simpl; unfold Use, MustUse, Invoke, MustInvoke, MustUseHook;
    repeat retains_step.
Qed.

End RetainedByCalls.

Lemma exec_retains fuel p : retains (exec fuel p).
Proof.
  revert p. induction fuel as [|n IH]; intros p; simpl.
  - intros w r w' [= _ <-]. apply keeps_refl.
  - by apply step_retains.
Qed.


(** X2. The registry [New] returns is well formed, and running client code
    keeps a registry well formed: every slot token points to an entry of
    the heap, and every entry that is not configured holds a constructor,
    so that [ensureConfigured] never meets a dangling entry or a nil
    [configureFunc]. *)
Theorem wellFormed_is_kept :
  wellFormed initial /\
  (forall fuel p w, wellFormed w -> wellFormed (snd (exec fuel p w))) /\
  (forall w k s,
      wellFormed w -> providers (locator w) !! k = Some s ->
      exists e, entries w !! s = Some e /\
                (configured e = true \/ exists c, configureFunc e = Some c)).
Proof.
  split; [|split].
  - split.
    + intros k s Hk. simpl in Hk. by rewrite lookup_empty in Hk.
    + intros s e Hs. simpl in Hs. by rewrite lookup_nil in Hs.
  - intros fuel p w Hw. destruct (exec fuel p w) as [r w'] eqn:E.
    by destruct (exec_retains fuel p w r w' E) as (_ & _ & _ & HW); apply HW.
  - intros w k s [Hp Hc] Hk.
    destruct (lookup_lt_is_Some_2 (entries w) s (Hp k s Hk)) as [e He].
    exists e. split; [done|].
    destruct (configured e) eqn:Hcfg; [by left|right].
    by destruct (Hc s e He Hcfg) as [c Hcf]; exists c.
Qed.

(** *** The accessors built on [useSlotValue] *)

Section Accessors.
Variable call : prog -> M (any * option error).

(** X3. [Invoke], [MustUse] and [MustInvoke] do what [Use] does to the
    state and differ only in what they hand back: [Invoke] drops the value,
    the Must variants turn an error into a panic that carries it.
    [MustUseHook] stands to [UseHook] in the same way. *)
Theorem accessors_follow_Use k h v w :
  Invoke call k w = (asInvoke (fst (Use call k w)), snd (Use call k w)) /\
  MustUse call k w = (asMustUse (fst (Use call k w)), snd (Use call k w)) /\
  MustInvoke call k w = (asMustInvoke (fst (Use call k w)), snd (Use call k w)) /\
  MustUseHook call h v w
    = (asMustUseHook (fst (UseHook call h v w)), snd (UseHook call h v w)).
Proof.
  unfold Invoke, MustUse, MustInvoke, Use, MustUseHook, bind.
  destruct (useSlotValue call k w) as [[[v0 [e0|]]|x|] w1];
    destruct (UseHook call h v w) as [[[e1|]|x1|] w2]; simpl; auto.
Qed.

(** X4. [MustUse] and [MustInvoke] on a token that has no entry panic with
    the "no injected value" error as the panic value, and write nothing. *)
Theorem MustUse_not_registered k w :
  providers (locator w) !! k = None ->
  MustUse call k w =
    (Panicked (PanicError
       (Errorf ("no injected value for type " +:+ getTypeName (slotType k)))), w) /\
  MustInvoke call k w =
    (Panicked (PanicError
       (Errorf ("no injected value for type " +:+ getTypeName (slotType k)))), w).
Proof.
  intros Hk. unfold MustUse, MustInvoke, bind.
  rewrite (useSlotValue_missing call k w Hk). auto.
Qed.

(** X5. For every value of type [T] other than the nil interface,
    [Provide] followed by [Use], [MustUse] or [Invoke] on the same token
    gives that value back, whatever was registered for the token before;
    no constructor is called and the accessors write nothing. *)
Theorem Provide_Use_round_trip k v w :
  hasType (slotType k) v = true -> v <> anyNil ->
  Use call k (snd (Provide k v w)) = (Done (v, None), snd (Provide k v w)) /\
  MustUse call k (snd (Provide k v w)) = (Done v, snd (Provide k v w)) /\
  Invoke call k (snd (Provide k v w)) = (Done None, snd (Provide k v w)) /\
  invoked (snd (Provide k v w)) = invoked w.
Proof.
  intros HT Hnil.
  pose proof (typeAssert_hasType _ _ HT Hnil) as Hv.
  destruct (Provide_entry k v w) as (_ & Hk & He).
  destruct (Use_configured call k _ _ v _ Hk He eq_refl Hv)
    as (_ & HU & HM & HI & _).
  auto.
Qed.

Lemma Use_other_after_registration k' s e v' w w' :
  providers (locator w) !! k' = Some s ->
  entries w !! s = Some e -> configured e = true ->
  typeAssert (slotType k') (value e) = Some v' ->
  providers (locator w') !! k' = providers (locator w) !! k' ->
  (exists e0, entries w' = entries w ++ [e0]) ->
  Use call k' w' = (Done (v', None), w').
Proof.
  intros Hk He Hc Hv Hp [e0 Hes].
  assert (entries w' !! s = Some e) as He'
    by (rewrite Hes; by apply lookup_app_l_Some).
  rewrite <- Hp in Hk.
  by destruct (Use_configured call k' s e v' w' Hk He' Hc Hv) as (_ & HU & _).
Qed.

(** X6. Registering a slot, eagerly or lazily, does not disturb another
    slot: a configured slot [k'] still yields its value after [Provide] or
    [ProvideFunc] on a different token [k]. *)
Theorem registration_leaves_other_slots k k' v f s e v' w :
  k' <> k ->
  providers (locator w) !! k' = Some s ->
  entries w !! s = Some e -> configured e = true ->
  typeAssert (slotType k') (value e) = Some v' ->
  Use call k' (snd (Provide k v w)) = (Done (v', None), snd (Provide k v w)) /\
  Use call k' (snd (ProvideFunc k f w))
    = (Done (v', None), snd (ProvideFunc k f w)).
Proof.
  intros Hne Hk He Hc Hv. split.
  - apply (Use_other_after_registration k' s e v' w); try done.
    + rewrite Provide_run. simpl. by rewrite lookup_insert_ne.
    + rewrite Provide_run. simpl. eauto.
  - apply (Use_other_after_registration k' s e v' w); try done.
    + rewrite ProvideFunc_run. simpl. by rewrite lookup_insert_ne.
    + rewrite ProvideFunc_run. simpl. eauto.
Qed.

(** X7. Each registration writes under its own key only.  [Provide] and
    [ProvideFunc] leave every other slot token, every existing entry and
    all hooks as they were; [ProvideHook] leaves all slots and entries and
    every other hook token as they were. *)
Theorem registration_touches_one_key k v f h ls w :
  (forall k', k' <> k ->
     providers (locator (snd (Provide k v w))) !! k' = providers (locator w) !! k' /\
     providers (locator (snd (ProvideFunc k f w))) !! k' = providers (locator w) !! k') /\
  (forall s e, entries w !! s = Some e ->
     entries (snd (Provide k v w)) !! s = Some e /\
     entries (snd (ProvideFunc k f w)) !! s = Some e) /\
  hooks (locator (snd (Provide k v w))) = hooks (locator w) /\
  hooks (locator (snd (ProvideFunc k f w))) = hooks (locator w) /\
  providers (locator (snd (ProvideHook h ls w))) = providers (locator w) /\
  entries (snd (ProvideHook h ls w)) = entries w /\
  (forall h', h' <> h ->
     hooks (locator (snd (ProvideHook h ls w))) !! h' = hooks (locator w) !! h').
Proof.
  rewrite Provide_run, ProvideFunc_run, ProvideHook_run. simpl.
  split; [|split; [|repeat split]].
  - intros k' Hne. by rewrite !lookup_insert_ne.
  - intros s e He. split; by apply lookup_app_l_Some.
  - intros h' Hne. by rewrite lookup_insert_ne.
Qed.

(** The value [Use] hands back on success has passed the assertion. *)
Lemma useSlotValue_success k v w w' :
  useSlotValue call k w = (Done (v, None), w') ->
  typeAssert (slotType k) v = Some v.
Proof.
  unfold useSlotValue, bind at 1, loadProvider.
  destruct (providers (locator w) !! k) as [s|]; [|discriminate].
  unfold bind at 1.
  destruct (ensureConfigured call s w) as [[[err|]|x|] w1]; try discriminate.
  unfold bind, readEntry.
  destruct (entries w1 !! s) as [e|]; [|discriminate].
  destruct (typeAssert (slotType k) (value e)) as [v0|] eqn:Hv; [|discriminate].
  intros [= <- _]. by destruct (typeAssert_Some _ _ _ Hv) as [-> _].
Qed.

Lemma typeAssert_Some_hasType T x : typeAssert T x = Some x -> hasType T x = true.
Proof.
  destruct x as [|dyn d]; simpl; [discriminate|].
  destruct T as [n|i]; simpl.
  - destruct (decide (dyn = n)); [|discriminate].
    intros _. by apply bool_decide_eq_true.
  - destruct (implements dyn i); [done|discriminate].
Qed.

(** X8. What [Use] returns is always a value of the slot's type [T]: the
    zero value of [T] whenever it returns an error, and a value that is not
    the nil interface whenever it returns none. *)
Theorem Use_result_shape k v err w w' :
  Use call k w = (Done (v, err), w') ->
  hasType (slotType k) v = true /\
  match err with
  | Some _ => v = zero (slotType k)
  | None => v <> anyNil
  end.
Proof.
  unfold Use, bind.
  destruct (useSlotValue call k w) as [[[v0 [e0|]]|x|] w1] eqn:E;
    try discriminate; intros [= <- <- <-].
  - split; [apply hasType_zero|done].
  - apply useSlotValue_success in E. split.
    + by apply typeAssert_Some_hasType.
    + by destruct (typeAssert_Some _ _ _ E).
Qed.

End Accessors.

(** *** Construction on demand *)

Lemma ensureConfigured_panics call s e c x w w1 :
  entries w !! s = Some e -> configured e = false -> configureFunc e = Some c ->
  call c (recordCall s w) = (Panicked x, w1) ->
  ensureConfigured call s w = (Panicked x, w1).
Proof.
  intros He Hc Hf Hcall.
  unfold ensureConfigured, bind at 1, readEntry at 1. rewrite He, Hc, Hf. simpl.
  unfold bind. by rewrite Hcall.
Qed.

(** X9. [ProvideFunc] followed by [Use]: whatever was registered for the
    token before, the first [Use] calls the new constructor and, when that
    returns a value the assertion accepts and no error, returns this value
    and stores it in the entry. *)
Theorem ProvideFunc_then_Use n k c v w w1 :
  exec n c (recordCall (length (entries w)) (snd (ProvideFunc k c w)))
    = (Done (v, None), w1) ->
  typeAssert (slotType k) v = Some v ->
  exists e1,
    entries w1 !! length (entries w) = Some e1 /\
    forall m, n <= m ->
      Use (exec m) k (snd (ProvideFunc k c w))
        = (Done (v, None), storeConfigured (length (entries w)) e1 v w1).
Proof.
  intros Hcall Hv.
  destruct (ProvideFunc_entry k c w) as (_ & Hk & He & _).
  destruct (grows_lookup _ w1 _ _ (exec_preserves n c _ _ _ Hcall) He) as [e1 He1].
  exists e1. split; [done|]. intros m Hm.
  assert (exec m c (recordCall (length (entries w)) (snd (ProvideFunc k c w)))
          = (Done (v, None), w1)) as Hcall'
    by (by apply (exec_more_fuel n m c Hm)).
  unfold Use, bind.
  rewrite (useSlotValue_constructs (exec m) k _ _ c v _ w1 e1 Hk He eq_refl eq_refl
             Hcall' He1).
  by rewrite Hv.
Qed.

(** X10. A panic inside a constructor passes through [Use], [MustUse] and
    [Invoke] untouched: none of them recovers, and the state is the one the
    panicking constructor left, with nothing written by the package. *)
Theorem Use_constructor_panics n k s e c x w0 w1 :
  providers (locator w0) !! k = Some s ->
  entries w0 !! s = Some e -> configured e = false -> configureFunc e = Some c ->
  exec n c (recordCall s w0) = (Panicked x, w1) ->
  forall m, n <= m ->
    Use (exec m) k w0 = (Panicked x, w1) /\
    MustUse (exec m) k w0 = (Panicked x, w1) /\
    Invoke (exec m) k w0 = (Panicked x, w1).
Proof.
  intros Hk He Hc Hf Hcall m Hm.
  assert (exec m c (recordCall s w0) = (Panicked x, w1)) as Hcall'
    by (by apply (exec_more_fuel n m c Hm)).
  assert (useSlotValue (exec m) k w0 = (Panicked x, w1)) as HU.
  { unfold useSlotValue, bind at 1, loadProvider. rewrite Hk. unfold bind.
    by rewrite (ensureConfigured_panics (exec m) s e c x w0 w1 He Hc Hf Hcall'). }
  unfold Use, MustUse, Invoke, bind. rewrite HU. auto.
Qed.



(** *** More on hooks *)

Section MoreDispatch.
Variable call : prog -> M (any * option error).

Lemma rangeListeners_panics pre f post v w w1 w2 x :
  allSucceed call v pre w w1 ->
  call (f v) w1 = (Panicked x, w2) ->
  rangeListeners call (pre ++ f :: post) v w = (Panicked x, w2).
Proof.
  intros Hpre Hf. induction Hpre as [|L ls w w1 w3 r' Hc _ IH]; simpl.
  - unfold bind. by rewrite Hf.
  - unfold bind at 1. rewrite Hc. by apply IH.
Qed.

(** X13. A panic inside a listener passes through [UseHook] and
    [MustUseHook] untouched, in the state that listener left: the
    listeners after it are not called, and what the ones before it did
    stays done. *)
Theorem UseHook_listener_panics h e ls pre L post v w w1 w2 x :
  hooks (locator w) !! h = Some e ->
  listeners e = map (anyListener (hookType h)) ls ->
  typeAssert (hookType h) v = Some v ->
  ls = pre ++ L :: post ->
  allSucceed call v pre (hookLogged e v w) w1 ->
  call (L v) w1 = (Panicked x, w2) ->
  UseHook call h v w = (Panicked x, w2) /\
  MustUseHook call h v w = (Panicked x, w2).
Proof.
  intros Hh Hl Hv -> Hpre HL.
  assert (UseHook call h v w = (Panicked x, w2)) as HU.
  { unfold UseHook, bind, loadHook. rewrite Hh. simpl.
    rewrite Hl, map_app. simpl.
    eapply rangeListeners_panics.
    - apply allSucceed_anyListener; [exact Hv|exact Hpre].
    - by rewrite (anyListener_accepts _ L v v Hv). }
  split; [exact HU|]. unfold MustUseHook, bind. by rewrite HU.
Qed.

(** X14. [MustUseHook] in registration order: when every listener returns
    nil it returns in the state the last one left; when the listeners
    before [L] return nil and [L] returns an error, it panics with that
    error as the panic value, in the state [L] left. *)
Theorem MustUseHook_in_order h e ls v w :
  hooks (locator w) !! h = Some e ->
  listeners e = map (anyListener (hookType h)) ls ->
  typeAssert (hookType h) v = Some v ->
  (forall w',
      allSucceed call v ls (hookLogged e v w) w' ->
      MustUseHook call h v w = (Done tt, w')) /\
  (forall pre L post w1 w2 r err,
      ls = pre ++ L :: post ->
      allSucceed call v pre (hookLogged e v w) w1 ->
      call (L v) w1 = (Done (r, Some err), w2) ->
      MustUseHook call h v w = (Panicked (PanicError err), w2)).
Proof.
  intros Hh Hl Hv. split.
  - intros w' Hall.
    assert (UseHook call h v w = (Done None, w')) as HU.
    { unfold UseHook, bind, loadHook. rewrite Hh. simpl. rewrite Hl.
      apply rangeListeners_all. by apply allSucceed_anyListener. }
    unfold MustUseHook, bind. by rewrite HU.
  - intros pre L post w1 w2 r err -> Hpre HL.
    assert (UseHook call h v w = (Done (Some err), w2)) as HU.
    { unfold UseHook, bind, loadHook. rewrite Hh. simpl.
      rewrite Hl, map_app. simpl.
      eapply rangeListeners_first_failure.
      - apply allSucceed_anyListener; [exact Hv|exact Hpre].
      - by rewrite (anyListener_accepts _ L v v Hv). }
    unfold MustUseHook, bind. by rewrite HU.
Qed.

End MoreDispatch.

(** [UseHook] reads the entry once and runs the loop over the functions
    it found there. *)
Lemma UseHook_reads_entry call h e v w :
  hooks (locator w) !! h = Some e ->
  UseHook call h v w = rangeListeners call (listeners e) v (hookLogged e v w).
Proof.
  intros Hh. unfold UseHook, bind, loadHook. by rewrite Hh.
Qed.

Lemma rangeListeners_after call pre rest v w w1 :
  allSucceed call v pre w w1 ->
  rangeListeners call (pre ++ rest) v w = rangeListeners call rest v w1.
Proof.
  induction 1 as [|L ls w w1 w2 r Hc _ IH]; simpl; [done|].
  unfold bind at 1. by rewrite Hc.
Qed.

(** X15. Whatever a listener, at any place in the sequence, does to the
    registry while it runs, a call of [ProvideHook] on the hook under
    dispatch included, it does not change the dispatch under way:
    [UseHook] goes on with the functions that follow in the sequence it
    read before the loop, in the state the listener left.  When these have
    all returned nil, the dispatch has returned nil, and the next [UseHook]
    runs the functions of the entry [e'] the hook is bound to by then. *)
Theorem UseHook_reregistration_during_dispatch call h e pre f rest v w w1 w2 r :
  hooks (locator w) !! h = Some e ->
  listeners e = pre ++ f :: rest ->
  allSucceed call v pre (hookLogged e v w) w1 ->
  call (f v) w1 = (Done (r, None), w2) ->
  UseHook call h v w = rangeListeners call rest v w2 /\
  (forall w3 e',
      allSucceed call v rest w2 w3 ->
      hooks (locator w3) !! h = Some e' ->
      UseHook call h v w = (Done None, w3) /\
      forall v', UseHook call h v' w3
                 = rangeListeners call (listeners e') v' (hookLogged e' v' w3)).
Proof.
  intros Hh Hl Hpre Hf.
  assert (UseHook call h v w = rangeListeners call rest v w2) as HU.
  { rewrite (UseHook_reads_entry call h e v w Hh), Hl.
    rewrite (rangeListeners_after call pre (f :: rest) v _ w1 Hpre).
    simpl. unfold bind. by rewrite Hf. }
  split; [exact HU|].
  intros w3 e' Hrest Hh3. split.
  - rewrite HU. by apply rangeListeners_all.
  - intros v'. by apply UseHook_reads_entry.
Qed.

(** X17. [ProvideHook] followed by [UseHook], for every payload of type [T]
    other than the nil interface: the listeners are called in the order
    they were given.  When all of them return nil, [UseHook] returns nil in
    the state the last one left; when the ones before [L] return nil and
    [L] returns an error, [UseHook] returns that error in the state [L]
    left, so no later listener has run. *)
Theorem ProvideHook_then_UseHook call h ls v w :
  hasType (hookType h) v = true -> v <> anyNil ->
  (forall w',
      allSucceed call v ls
        (hookLogged {| hookTypeName := getTypeName (hookType h);
                       listeners := map (anyListener (hookType h)) ls |}
           v (snd (ProvideHook h ls w))) w' ->
      UseHook call h v (snd (ProvideHook h ls w)) = (Done None, w')) /\
  (forall pre L post w1 w2 r err,
      ls = pre ++ L :: post ->
      allSucceed call v pre
        (hookLogged {| hookTypeName := getTypeName (hookType h);
                       listeners := map (anyListener (hookType h)) ls |}
           v (snd (ProvideHook h ls w))) w1 ->
      call (L v) w1 = (Done (r, Some err), w2) ->
      UseHook call h v (snd (ProvideHook h ls w)) = (Done (Some err), w2)).
Proof.
  intros HT Hnil.
  pose proof (typeAssert_hasType _ _ HT Hnil) as Hv.
  assert (hooks (locator (snd (ProvideHook h ls w))) !! h
          = Some {| hookTypeName := getTypeName (hookType h);
                    listeners := map (anyListener (hookType h)) ls |}) as Hh.
  { rewrite ProvideHook_run. simpl. apply lookup_insert_eq. }
  revert Hh. generalize (snd (ProvideHook h ls w)). intros w0 Hh.
  split.
  - intros w' Hall. unfold UseHook, bind, loadHook. rewrite Hh. simpl.
    apply rangeListeners_all. by apply allSucceed_anyListener.
  - intros pre L post w1 w2 r err -> Hpre HL.
    unfold UseHook, bind, loadHook. rewrite Hh. simpl.
    rewrite map_app. simpl.
    eapply rangeListeners_first_failure.
    + apply allSucceed_anyListener; [exact Hv|exact Hpre].
    + by rewrite (anyListener_accepts _ L v v Hv).
Qed.

(** *** Tokens of different types *)

(** X16. Whatever addresses the allocator hands out, tokens made for
    different types are different keys, slots and hooks alike: a value
    provided for one is not touched by providing for the other. *)
Theorem tokens_of_different_types_differ newZeroSize T1 T2 n m call v1 v2 w :
  T1 <> T2 ->
  typeAssert T1 v1 = Some v1 ->
  fst (NewSlot newZeroSize T1 n) <> fst (NewSlot newZeroSize T2 m) /\
  fst (NewHook newZeroSize T1 n) <> fst (NewHook newZeroSize T2 m) /\
  Use call (fst (NewSlot newZeroSize T1 n))
    (snd (Provide (fst (NewSlot newZeroSize T2 m)) v2
       (snd (Provide (fst (NewSlot newZeroSize T1 n)) v1 w))))
    = (Done (v1, None),
       snd (Provide (fst (NewSlot newZeroSize T2 m)) v2
         (snd (Provide (fst (NewSlot newZeroSize T1 n)) v1 w)))).
Proof.
  intros HT Hv. unfold NewSlot, NewHook. cbn [fst].
  assert (mkSlot T1 (newZeroSize n) <> mkSlot T2 (newZeroSize m)) as Hne
    by (intros [= H _]; contradiction).
  split; [exact Hne|]. split; [intros [= H _]; contradiction|].
  destruct (Provide_entry (mkSlot T1 (newZeroSize n)) v1 w) as (_ & Hk & He).
  apply (Use_other_after_registration call _ _ _ v1 _ _ Hk He eq_refl Hv).
  - rewrite (Provide_run (mkSlot T2 (newZeroSize m))). simpl.
    by rewrite lookup_insert_ne.
  - rewrite (Provide_run (mkSlot T2 (newZeroSize m))). simpl. eauto.
Qed.

End Package.

(** ** The properties on concrete runs *)

Module Runs.
Import Examples.

(** sl.Provide(l, otherIntSlot, 41); sl.ProvideFunc(l, intSlot, needsOther) *)
Definition dependent : state :=
  snd (ProvideFunc intSlot needsOther (snd (Provide otherIntSlot (int 41) initial))).

(** sl.ProvideFunc(l, intSlot, needsOther), with nothing provided for
    otherIntSlot *)
Definition orphan : state :=
  snd (ProvideFunc intSlot needsOther initial).


(** sl.ProvideFunc(l, intSlot, provideThenFail) *)
Definition providingThenFailing : state :=
  snd (ProvideFunc intSlot provideThenFail initial).

(** sl.Provide(l, errorSlot, nil) *)
Definition nilProvided : state :=
  snd (Provide errorSlot anyNil initial).


(** sl.ProvideFunc(l, intSlot, failOnceReentrant) *)
Definition reentrant : state :=
  snd (ProvideFunc intSlot failOnceReentrant initial).

(** The three registrations of TestBasic. *)
Definition testBasic : state :=
  snd (ProvideFunc ExampleServiceSlot newExampleService
    (snd (ProvideFunc LoggerSlot newLogger
      (snd (ProvideFunc ConfigSlot newConfig initial))))).

(** sl.ProvideHook(l, intHook, A, B, C) with B failing *)
Definition hookABC : state :=
  snd (ProvideHook implementsAll intHook
         [addToTotal 1; failListener; addToTotal 10] initial).

(** sl.ProvideHook(l, intHook, A, C) *)
Definition hookAC : state :=
  snd (ProvideHook implementsAll intHook [addToTotal 1; addToTotal 10] initial).

Definition use (fuel : nat) (k : slot) : M (any * option error) :=
  Use implementsAll (exec implementsAll fuel) k.

Definition useHook (fuel : nat) (h : hook) (v : any) : M (option error) :=
  UseHook (exec implementsAll fuel) h v.

End Runs.

Import Examples Runs.

Lemma Use_not_registered_witness :
  Use implementsAll (exec implementsAll 0) intSlot initial =
    (Done (int 0, Some (Errorf "no injected value for type int")), initial) /\
  Invoke implementsAll (exec implementsAll 0) intSlot initial =
    (Done (Some (Errorf "no injected value for type int")), initial).
Proof.
  apply (Use_not_registered implementsAll (exec implementsAll 0) intSlot initial).
  reflexivity.
Defined.

Lemma Use_configured_nil_panics_witness :
  Use implementsAll (exec implementsAll 0) errorSlot nilProvided
    = (Panicked interfaceConversion, nilProvided) /\
  MustUse implementsAll (exec implementsAll 0) errorSlot nilProvided
    = (Panicked interfaceConversion, nilProvided) /\
  Invoke implementsAll (exec implementsAll 0) errorSlot nilProvided
    = (Panicked interfaceConversion, nilProvided).
Proof.
  apply (Use_configured_nil_panics implementsAll (exec implementsAll 0)
           errorSlot 0 (eagerEntry errorSlot anyNil) nilProvided);
    reflexivity.
Defined.

Lemma UseHook_not_registered_panics_witness :
  UseHook (exec implementsAll 0) intHook (int 3) initial
    = (Panicked nilDereference, initial).
Proof.
  apply (UseHook_not_registered_panics (exec implementsAll 0) intHook (int 3) initial).
  reflexivity.
Defined.



Lemma Use_constructor_failure_witness :
  (forall m, 2 <= m ->
     use m intSlot orphan
       = (Done (int 0, Some (Errorf "no injected value for type int")),
          recordCall 0 orphan)) /\
  (providers (locator (snd (use 2 intSlot orphan))) !! intSlot = Some 0 /\
   entries (snd (use 2 intSlot orphan)) !! 0 = Some (lazyEntry intSlot needsOther)) /\
  (forall m r w2,
      use m intSlot (recordCall 0 orphan) = (r, w2) ->
      timesInvoked 0 (recordCall 0 orphan) < timesInvoked 0 w2).
Proof.
  apply (Use_constructor_failure implementsAll 2 intSlot 0
           (lazyEntry intSlot needsOther) needsOther (int 0)
           (Errorf "no injected value for type int") orphan (recordCall 0 orphan));
    reflexivity.
Defined.

(** C3 as stated fails.  The constructor [provideThenFail] fails and [Use]
    hands its error on, but the entry now bound to the token is
    configured and holds 7, and the next [Use] returns 7 without calling
    any constructor.  The constructor [failOnceReentrant] fails as well, on
    its first call, after a nested [Use] of its own slot has had the very
    same entry configured with 5: the next [Use] returns 5, again without
    any call. *)
Lemma Use_after_failure_may_find_slot_configured :
  (fst (use 3 intSlot providingThenFailing) = Done (int 0, Some boom) /\
   providers (locator (snd (use 3 intSlot providingThenFailing))) !! intSlot = Some 1 /\
   entries (snd (use 3 intSlot providingThenFailing)) !! 1
     = Some (eagerEntry intSlot (int 7)) /\
   use 3 intSlot (snd (use 3 intSlot providingThenFailing))
     = (Done (int 7, None), snd (use 3 intSlot providingThenFailing))) /\
  (fst (use 6 intSlot reentrant) = Done (int 0, Some boom) /\
   providers (locator (snd (use 6 intSlot reentrant))) !! intSlot = Some 0 /\
   (configured <$> entries (snd (use 6 intSlot reentrant)) !! 0) = Some true /\
   (value <$> entries (snd (use 6 intSlot reentrant)) !! 0) = Some (int 5) /\
   use 6 intSlot (snd (use 6 intSlot reentrant))
     = (Done (int 5, None), snd (use 6 intSlot reentrant))).
Proof. repeat apply conj; vm_compute; reflexivity. Qed.

(** *** The package's own test, and the ordering of listeners *)

(** TestBasic: resolving the service configures the three slots, the
    service's constructor first and the two it depends on inside it, each
    once; resolving it again returns the same value and changes nothing. *)
Example TestBasic_runs :
  fst (use 6 ExampleServiceSlot testBasic)
    = Done (anyVal "*sl_test.ExampleService" 21, None) /\
  invoked (snd (use 6 ExampleServiceSlot testBasic)) = [1; 0; 2] /\
  use 6 ExampleServiceSlot (snd (use 6 ExampleServiceSlot testBasic))
    = (Done (anyVal "*sl_test.ExampleService" 21, None),
       snd (use 6 ExampleServiceSlot testBasic)).
Proof. repeat apply conj; vm_compute; reflexivity. Qed.

(** Listeners A, B, C with B failing: B's error comes back, A has added 1
    to the total and C has not added 10.  Without B both have run, in
    order. *)
Example UseHook_stops_at_first_failure :
  fst (useHook 4 intHook (int 3) hookABC) = Done (Some boom) /\
  vars (snd (useHook 4 intHook (int 3) hookABC)) !! "total" = Some 1%Z /\
  fst (useHook 4 intHook (int 3) hookAC) = Done None /\
  vars (snd (useHook 4 intHook (int 3) hookAC)) !! "total" = Some 11%Z.
Proof. repeat apply conj; vm_compute; reflexivity. Qed.

(** ** The further properties on concrete runs *)

Module Cases.
Import Examples.

(** func(l *ServiceLocator) (int, error) {
      return sl.MustUse(l, otherIntSlot), nil } *)
Definition mustOther : prog := DoMustUse otherIntSlot (fun v => Return v None).


(** A listener that panics. *)
Definition panicListener : any -> prog :=
  fun _ => DoPanic (PanicString "stop").

(** A listener that registers intHook anew, with one listener that adds
    100 to the total. *)
Definition swapIntHook : any -> prog :=
  fun _ => DoProvideHook intHook [addToTotal 100] (Return anyNil None).

(** sl.Provide(l, intSlot, 5) *)
Definition fiveProvided : state := snd (Provide intSlot (int 5) initial).

(** sl.Provide(l, otherIntSlot, 41) *)
Definition otherProvided : state := snd (Provide otherIntSlot (int 41) initial).

(** sl.ProvideFunc(l, intSlot, mustOther), nothing provided for otherIntSlot *)
Definition mustOrphan : state := snd (ProvideFunc intSlot mustOther initial).


Definition panicking : list (any -> prog) :=
  [addToTotal 1; panicListener; addToTotal 10].

Definition failing : list (any -> prog) :=
  [addToTotal 1; failListener; addToTotal 10].

Definition succeeding : list (any -> prog) :=
  [addToTotal 1; addToTotal 10].

Definition swapping : list (any -> prog) :=
  [addToTotal 1; swapIntHook; addToTotal 10].

(** sl.ProvideHook(l, intHook, addToTotal 100) and then
    sl.ProvideHook(l, intHook, addToTotal 1, addToTotal 10) *)
Definition registeredTwice : state :=
  snd (ProvideHook implementsAll intHook succeeding
         (snd (ProvideHook implementsAll intHook [addToTotal 100] initial))).

Definition hookEntryOf (h : hook) (ls : list (any -> prog)) : hookEntry :=
  {| hookTypeName := getTypeName (hookType h);
     listeners := map (anyListener implementsAll (hookType h)) ls |}.

Definition hookState (ls : list (any -> prog)) : state :=
  snd (ProvideHook implementsAll intHook ls initial).

(** The state after the first listener of [panicking] or [failing]. *)
Definition afterFirst (ls : list (any -> prog)) : state :=
  snd (exec implementsAll 4 (addToTotal 1 (int 3))
         (hookLogged (hookEntryOf intHook ls) (int 3) (hookState ls))).

(** The state after both listeners of [succeeding]. *)
Definition afterBoth : state :=
  snd (exec implementsAll 4 (addToTotal 10 (int 3)) (afterFirst succeeding)).

(** The states of a dispatch over [swapping]: after the listener that
    registers the hook anew, and after the last listener. *)
Definition afterSwap : state :=
  snd (exec implementsAll 4 (swapIntHook (int 3)) (afterFirst swapping)).

Definition afterSwapping : state :=
  snd (exec implementsAll 4 (addToTotal 10 (int 3)) afterSwap).

End Cases.

Import Cases.

Lemma first_listener_succeeds ls :
  allSucceed (exec implementsAll 4) (int 3) [addToTotal 1]
    (hookLogged (hookEntryOf intHook ls) (int 3) (hookState ls)) (afterFirst ls).
Proof.
  apply (allSucceed_cons _ _ _ _ _ (afterFirst ls) _ anyNil); [reflexivity|].
  constructor.
Defined.

Lemma MustUse_not_registered_witness :
  MustUse implementsAll (exec implementsAll 0) intSlot initial =
    (Panicked (PanicError (Errorf "no injected value for type int")), initial) /\
  MustInvoke implementsAll (exec implementsAll 0) intSlot initial =
    (Panicked (PanicError (Errorf "no injected value for type int")), initial).
Proof.
  apply (MustUse_not_registered implementsAll (exec implementsAll 0) intSlot initial).
  reflexivity.
Defined.

Lemma Provide_Use_round_trip_witness :
  Use implementsAll (exec implementsAll 0) intSlot fiveProvided
    = (Done (int 5, None), fiveProvided) /\
  MustUse implementsAll (exec implementsAll 0) intSlot fiveProvided
    = (Done (int 5), fiveProvided) /\
  Invoke implementsAll (exec implementsAll 0) intSlot fiveProvided
    = (Done None, fiveProvided) /\
  invoked fiveProvided = invoked initial.
Proof.
  apply (Provide_Use_round_trip implementsAll (exec implementsAll 0)
           intSlot (int 5) initial); [reflexivity|discriminate].
Defined.

Lemma registration_leaves_other_slots_witness :
  Use implementsAll (exec implementsAll 0) intSlot
      (snd (Provide otherIntSlot (int 9) fiveProvided))
    = (Done (int 5, None), snd (Provide otherIntSlot (int 9) fiveProvided)) /\
  Use implementsAll (exec implementsAll 0) intSlot
      (snd (ProvideFunc otherIntSlot returnOne fiveProvided))
    = (Done (int 5, None), snd (ProvideFunc otherIntSlot returnOne fiveProvided)).
Proof.
  apply (registration_leaves_other_slots implementsAll (exec implementsAll 0)
           otherIntSlot intSlot (int 9) returnOne 0 (eagerEntry intSlot (int 5))
           (int 5) fiveProvided); try reflexivity.
  discriminate.
Defined.

Lemma Use_result_shape_witness :
  hasType implementsAll (slotType intSlot) (int 0) = true /\
  int 0 = zero (slotType intSlot).
Proof.
  apply (Use_result_shape implementsAll (exec implementsAll 0) intSlot (int 0)
           (Some (Errorf "no injected value for type int")) initial initial).
  reflexivity.
Defined.

Lemma ProvideFunc_then_Use_witness :
  exists e1,
    entries (snd (exec implementsAll 2 needsOther (recordCall 1 dependent))) !! 1
      = Some e1 /\
    forall m, 2 <= m ->
      use m intSlot dependent
        = (Done (int 42, None),
           storeConfigured 1 e1 (int 42)
             (snd (exec implementsAll 2 needsOther (recordCall 1 dependent)))).
Proof.
  apply (ProvideFunc_then_Use implementsAll 2 intSlot needsOther (int 42)
           otherProvided
           (snd (exec implementsAll 2 needsOther (recordCall 1 dependent))));
    reflexivity.
Defined.

Lemma Use_constructor_panics_witness :
  Use implementsAll (exec implementsAll 3) intSlot mustOrphan
    = (Panicked (PanicError (Errorf "no injected value for type int")),
       recordCall 0 mustOrphan) /\
  MustUse implementsAll (exec implementsAll 3) intSlot mustOrphan
    = (Panicked (PanicError (Errorf "no injected value for type int")),
       recordCall 0 mustOrphan) /\
  Invoke implementsAll (exec implementsAll 3) intSlot mustOrphan
    = (Panicked (PanicError (Errorf "no injected value for type int")),
       recordCall 0 mustOrphan).
Proof.
  refine (Use_constructor_panics implementsAll 1 intSlot 0
            (lazyEntry intSlot mustOther) mustOther
            (PanicError (Errorf "no injected value for type int"))
            mustOrphan (recordCall 0 mustOrphan) _ _ _ _ _ 3 _);
    [reflexivity | reflexivity | reflexivity | reflexivity | reflexivity | lia].
Defined.



Lemma UseHook_listener_panics_witness :
  UseHook (exec implementsAll 4) intHook (int 3) (hookState panicking)
    = (Panicked (PanicString "stop"), afterFirst panicking) /\
  MustUseHook (exec implementsAll 4) intHook (int 3) (hookState panicking)
    = (Panicked (PanicString "stop"), afterFirst panicking).
Proof.
  apply (UseHook_listener_panics implementsAll (exec implementsAll 4) intHook
           (hookEntryOf intHook panicking) panicking
           [addToTotal 1] panicListener [addToTotal 10] (int 3)
           (hookState panicking) (afterFirst panicking) (afterFirst panicking)
           (PanicString "stop")); try reflexivity.
  apply first_listener_succeeds.
Defined.

Lemma ProvideHook_twice_replaces_witness :
  map (fun f => f (int 3)) (listeners (hookEntryOf intHook succeeding))
    = map (fun L => L (int 3)) succeeding /\
  UseHook (exec implementsAll 4) intHook (int 3) registeredTwice
    = rangeListeners (exec implementsAll 4) succeeding (int 3)
        (hookLogged (hookEntryOf intHook succeeding) (int 3) registeredTwice) /\
  fst (UseHook (exec implementsAll 4) intHook (int 3) registeredTwice) = Done None /\
  vars (snd (UseHook (exec implementsAll 4) intHook (int 3) registeredTwice)) !! "total"
    = Some 11%Z.
Proof.
  pose proof (ProvideHook_twice_replaces implementsAll (exec implementsAll 4)
                intHook [addToTotal 100] succeeding initial) as H.
  cbv zeta in H. destruct H as (_ & _ & _ & _ & _ & H).
  destruct (H (int 3) eq_refl ltac:(discriminate)) as [H1 H2].
  split; [exact H1|]. split; [exact H2|].
  split; vm_compute; reflexivity.
Defined.

Lemma both_listeners_succeed :
  allSucceed (exec implementsAll 4) (int 3) succeeding
    (hookLogged (hookEntryOf intHook succeeding) (int 3) (hookState succeeding))
    afterBoth.
Proof.
  apply (allSucceed_cons _ _ _ _ _ (afterFirst succeeding) _ anyNil); [reflexivity|].
  apply (allSucceed_cons _ _ _ _ _ afterBoth _ anyNil); [reflexivity|].
  constructor.
Defined.

Lemma MustUseHook_in_order_witness :
  MustUseHook (exec implementsAll 4) intHook (int 3) (hookState succeeding)
    = (Done tt, afterBoth) /\
  MustUseHook (exec implementsAll 4) intHook (int 3) (hookState failing)
    = (Panicked (PanicError boom), afterFirst failing).
Proof.
  split.
  - refine (proj1 (MustUseHook_in_order implementsAll (exec implementsAll 4) intHook
                     (hookEntryOf intHook succeeding) succeeding (int 3)
                     (hookState succeeding) _ _ _)
              afterBoth both_listeners_succeed); reflexivity.
  - refine (proj2 (MustUseHook_in_order implementsAll (exec implementsAll 4) intHook
                     (hookEntryOf intHook failing) failing (int 3)
                     (hookState failing) _ _ _)
              [addToTotal 1] failListener [addToTotal 10]
              (afterFirst failing) (afterFirst failing) anyNil boom
              _ (first_listener_succeeds failing) _); reflexivity.
Defined.

Lemma ProvideHook_then_UseHook_witness :
  UseHook (exec implementsAll 4) intHook (int 3) (hookState succeeding)
    = (Done None, afterBoth) /\
  UseHook (exec implementsAll 4) intHook (int 3) (hookState failing)
    = (Done (Some boom), afterFirst failing) /\
  vars afterBoth !! "total" = Some 11%Z /\
  vars (afterFirst failing) !! "total" = Some 1%Z.
Proof.
  split; [|split; [|split; reflexivity]].
  - refine (proj1 (ProvideHook_then_UseHook implementsAll (exec implementsAll 4)
                     intHook succeeding (int 3) initial _ _)
              afterBoth both_listeners_succeed); [reflexivity|discriminate].
  - refine (proj2 (ProvideHook_then_UseHook implementsAll (exec implementsAll 4)
                     intHook failing (int 3) initial _ _)
              [addToTotal 1] failListener [addToTotal 10]
              (afterFirst failing) (afterFirst failing) anyNil boom
              _ (first_listener_succeeds failing) _);
      [reflexivity|discriminate|reflexivity|reflexivity].
Defined.

Lemma last_listener_succeeds :
  allSucceed (exec implementsAll 4) (int 3)
    (map (anyListener implementsAll intType) [addToTotal 10]) afterSwap afterSwapping.
Proof.
  apply (allSucceed_cons _ _ _ _ _ afterSwapping _ anyNil); [reflexivity|].
  constructor.
Defined.

Lemma first_stored_listener_succeeds :
  allSucceed (exec implementsAll 4) (int 3)
    (map (anyListener implementsAll intType) [addToTotal 1])
    (hookLogged (hookEntryOf intHook swapping) (int 3) (hookState swapping))
    (afterFirst swapping).
Proof.
  apply (allSucceed_cons _ _ _ _ _ (afterFirst swapping) _ anyNil); [reflexivity|].
  constructor.
Defined.

Lemma UseHook_reregistration_during_dispatch_witness :
  (UseHook (exec implementsAll 4) intHook (int 3) (hookState swapping)
     = (Done None, afterSwapping) /\
   forall v', UseHook (exec implementsAll 4) intHook v' afterSwapping
              = rangeListeners (exec implementsAll 4)
                  (listeners (hookEntryOf intHook [addToTotal 100])) v'
                  (hookLogged (hookEntryOf intHook [addToTotal 100]) v' afterSwapping)) /\
  vars afterSwapping !! "total" = Some 11%Z /\
  vars (snd (UseHook (exec implementsAll 4) intHook (int 3) afterSwapping)) !! "total"
    = Some 111%Z.
Proof.
  split; [|split; vm_compute; reflexivity].
  refine (proj2 (UseHook_reregistration_during_dispatch (exec implementsAll 4) intHook
                   (hookEntryOf intHook swapping)
                   (map (anyListener implementsAll intType) [addToTotal 1])
                   (anyListener implementsAll intType swapIntHook)
                   (map (anyListener implementsAll intType) [addToTotal 10])
                   (int 3) (hookState swapping) (afterFirst swapping) afterSwap anyNil
                   _ _ first_stored_listener_succeeds _)
            afterSwapping (hookEntryOf intHook [addToTotal 100])
            last_listener_succeeds _); reflexivity.
Defined.

Lemma tokens_of_different_types_differ_witness :
  fst (NewSlot gcZeroSize intType 0) <> fst (NewSlot gcZeroSize errorType 1) /\
  fst (NewHook gcZeroSize intType 0) <> fst (NewHook gcZeroSize errorType 1) /\
  Use implementsAll (exec implementsAll 0) (fst (NewSlot gcZeroSize intType 0))
    (snd (Provide (fst (NewSlot gcZeroSize errorType 1)) anyNil
       (snd (Provide (fst (NewSlot gcZeroSize intType 0)) (int 5) initial))))
    = (Done (int 5, None),
       snd (Provide (fst (NewSlot gcZeroSize errorType 1)) anyNil
         (snd (Provide (fst (NewSlot gcZeroSize intType 0)) (int 5) initial)))).
Proof.
  apply (tokens_of_different_types_differ implementsAll gcZeroSize intType errorType
           0 1 (exec implementsAll 0) (int 5) anyNil initial);
    [discriminate|reflexivity].
Defined.
